(** * camera.ui: the per-camera stream service

    A shallow embedding of
    [src/controller/camera/services/stream.service.js] and the properties
    of its option assembly, its admission-slot discipline and its process
    life cycle. *)

From Stdlib Require Import ZArith NArith List String Ascii Bool Lia.
From Stdlib Require Import DecimalString Permutation Sorted.
Import ListNotations.

Local Open Scope string_scope.
Local Open Scope list_scope.

(** ** The JavaScript fragment the service relies on *)

Module JS.

(** Primitive values that configuration fields and option values range over.
    Numbers are the integers that a double holds exactly and prints in
    plain decimal (bitrates, frame rates, exit codes), and [NaN]. *)
Inductive value : Type :=
| Undefined
| Null
| Bool (b : bool)
| Num (n : Z)
| NaN
| Str (s : string).

(** [ToBoolean]: what [if (v)] and [!v] test. *)
Definition truthy (v : value) : bool :=
  match v with
  | Undefined | Null | NaN => false
  | Bool b => b
  | Num n => negb (n =? 0)%Z
  | Str s => negb (s =? "")
  end.

(** [a === b] *)
Definition strict_eq (a b : value) : bool :=
  match a, b with
  | Undefined, Undefined => true
  | Null, Null => true
  | Bool x, Bool y => Bool.eqb x y
  | Num x, Num y => (x =? y)%Z
  | Str x, Str y => (x =? y)
  | _, _ => false
  end.

(** [ToString], as template literals and property keys apply it. *)
Definition ToString (v : value) : string :=
  match v with
  | Undefined => "undefined"
  | Null => "null"
  | Bool true => "true"
  | Bool false => "false"
  | Num n => NilZero.string_of_int (Z.to_int n)
  | NaN => "NaN"
  | Str s => s
  end.

(** [s.split(sep)] for a one-character separator. *)
Fixpoint split (sep : ascii) (s : string) : list string :=
  match s with
  | EmptyString => [EmptyString]
  | String c rest =>
      if Ascii.eqb c sep then EmptyString :: split sep rest
      else match split sep rest with
           | [] => [String c EmptyString]
           | w :: ws => String c w :: ws
           end
  end.

(** [fields.join(sep)] on strings, and whether a character occurs. *)
Fixpoint join (sep : ascii) (fields : list string) : string :=
  match fields with
  | [] => ""
  | [f] => f
  | f :: rest => f ++ String sep (join sep rest)
  end.

Fixpoint contains (c : ascii) (s : string) : bool :=
  match s with
  | EmptyString => false
  | String x rest => Ascii.eqb x c || contains c rest
  end.

(** [s.includes(t)] *)
Fixpoint includes (s t : string) : bool :=
  String.prefix t s ||
  match s with
  | EmptyString => false
  | String _ rest => includes rest t
  end.

(** [s.replace(/c/g, by)] for a one-character pattern [c]. *)
Fixpoint replace_all (c by_ : ascii) (s : string) : string :=
  match s with
  | EmptyString => EmptyString
  | String x rest =>
      String (if Ascii.eqb x c then by_ else x) (replace_all c by_ rest)
  end.

(** [arr.toString()], that is [arr.join(',')]: [undefined] and [null]
    elements print as the empty string. *)
Definition join_elem (v : value) : string :=
  match v with
  | Undefined | Null => ""
  | _ => ToString v
  end.

Fixpoint Array_toString (l : list value) : string :=
  match l with
  | [] => ""
  | [v] => join_elem v
  | v :: rest => join_elem v ++ "," ++ Array_toString rest
  end.

(** *** Property keys that are array indices

    A key is an array index when it is the canonical decimal form of an
    integer between 0 and 2^32 - 2. *)
Definition digit_of (c : ascii) : option N :=
  let n := N_of_ascii c in
  if ((48 <=? n) && (n <=? 57))%N then Some (n - 48)%N else None.

Fixpoint digits (s : string) (acc : N) : option N :=
  match s with
  | EmptyString => Some acc
  | String c rest =>
      match digit_of c with
      | Some d => digits rest (10 * acc + d)%N
      | None => None
      end
  end.

Definition array_index (k : string) : option N :=
  match k with
  | EmptyString => None
  | String "0" EmptyString => Some 0%N
  | String "0" _ => None
  | _ =>
      match digits k 0 with
      | Some n => if (n <=? 4294967294)%N then Some n else None
      | None => None
      end
  end.

Definition is_index (k : string) : bool :=
  match array_index k with Some _ => true | None => false end.

(** *** Ordinary objects with string keys

    The list holds the own properties in the order they were created; no
    key occurs twice. *)
Definition object : Type := list (string * value).

Definition wf (o : object) : Prop := NoDup (map fst o).

Fixpoint lookup (o : object) (k : string) : option value :=
  match o with
  | [] => None
  | (k', v) :: rest => if k' =? k then Some v else lookup rest k
  end.

(** [o[k]] *)
Definition get (o : object) (k : string) : value :=
  match lookup o k with Some v => v | None => Undefined end.

Definition has (o : object) (k : string) : bool :=
  match lookup o k with Some _ => true | None => false end.

(** [o[k] = v]: an existing property keeps its place, a new one goes last.
    This is assignment to a key other than [__proto__]; for that key the
    accessor inherited from [Object.prototype] runs instead and no own
    property is made. *)
Fixpoint set (k : string) (v : value) (o : object) : object :=
  match o with
  | [] => [(k, v)]
  | (k', v') :: rest =>
      if k' =? k then (k, v) :: rest else (k', v') :: set k v rest
  end.

(** A run of assignments, in order. *)
Definition assign_all (l : list (string * value)) (o : object) : object :=
  fold_left (fun acc kv => set (fst kv) (snd kv) acc) l o.

(** [delete o[k]] *)
Definition delete (k : string) (o : object) : object :=
  filter (fun kv => negb (fst kv =? k)) o.

(** Insertion of an index key into a list sorted by index. *)
Fixpoint insert_index (n : N) (k : string) (l : list (N * string))
  : list (N * string) :=
  match l with
  | [] => [(n, k)]
  | (m, k') :: rest =>
      if (n <=? m)%N then (n, k) :: l else (m, k') :: insert_index n k rest
  end.

Fixpoint index_keys (o : object) : list (N * string) :=
  match o with
  | [] => []
  | (k, _) :: rest =>
      match array_index k with
      | Some n => insert_index n k (index_keys rest)
      | None => index_keys rest
      end
  end.

(** The order of [index_keys]. *)
Definition index_le (a b : N * string) : Prop := (fst a <= fst b)%N.

Definition string_keys (o : object) : list string :=
  filter (fun k => negb (is_index k)) (map fst o).

(** [Object.keys(o)]: the array indices in ascending order, then the other
    keys in creation order. *)
Definition keys (o : object) : list string :=
  map snd (index_keys o) ++ string_keys o.

(** [Object.entries(o)] *)
Definition entries (o : object) : list (string * value) :=
  map (fun k => (k, get o k)) (keys o).

(** [{...o, k1: v1, ..., kn: vn}]: a fresh object that receives the own
    properties of [o] in [Object.keys] order, then the listed ones. *)
Definition spread (o : object) (more : list (string * value)) : object :=
  assign_all (entries o ++ more) [].

(** *** Exceptions and method calls on strings *)
Inductive error : Type :=
| TypeError (msg : string).

Inductive completion (A : Type) : Type :=
| Normal (a : A)
| Throw (e : error).
Arguments Normal {A} a.
Arguments Throw {A} e.

(** [s.m(arg)] for the boolean-valued methods of [String.prototype]. A
    name that [String.prototype] does not define evaluates to [undefined],
    and calling it raises a [TypeError]. *)
Definition String_call (s m arg : string) : completion value :=
  if m =? "includes" then Normal (Bool (includes s arg))
  else if m =? "startsWith" then Normal (Bool (String.prefix arg s))
  else Throw (TypeError ("source." ++ m ++ " is not a function")).

End JS.

(** ** Data model *)

(** [camera.videoConfig] *)
Record videoConfig : Type := VideoConfig {
  vc_source : string;
  vc_maxWidth : JS.value;
  vc_maxHeight : JS.value;
  vc_maxBitrate : JS.value;
  vc_maxFPS : JS.value;
  vc_encoderOptions : JS.value;
  vc_mapvideo : JS.value;
  vc_mapaudio : JS.value;
  vc_videoFilter : JS.value;
  vc_audio : JS.value;
  vc_debug : JS.value
}.

Record camera : Type := Camera {
  name : string;
  camera_videoConfig : videoConfig
}.

(** One element of [settings.cameras] in the interface database; an absent
    field reads as [JS.Undefined]. *)
Record cameraSetting : Type := CameraSetting {
  cs_name : JS.value;
  cs_resolution : JS.value;
  cs_audio : JS.value
}.

(** [streamOptions.source] starts as the configured string;
    [setStreamSource] would store the array that [split] returns. *)
Inductive sourceValue : Type :=
| SourceString (s : string)
| SourceArray (l : list string).

Record StreamOptions : Type := mkStreamOptions {
  source : sourceValue;
  ffmpegOptions : JS.object
}.

(** Handle of a spawned child process. *)
Definition pid : Type := nat.

(** The fields of a [StreamService] instance. *)
Record StreamService : Type := mkStreamService {
  videoProcessor : string;
  cameraName : string;
  debug : JS.value;
  streamOptions : StreamOptions;
  streamSession : option pid
}.

(** ** Option assembly: constructor and mutators *)

Definition update_options (f : JS.object -> JS.object) (s : StreamService)
  : StreamService :=
  mkStreamService (videoProcessor s) (cameraName s) (debug s)
    (mkStreamOptions (source (streamOptions s))
                     (f (ffmpegOptions (streamOptions s))))
    (streamSession s).

Definition update_source (v : sourceValue) (s : StreamService)
  : StreamService :=
  mkStreamService (videoProcessor s) (cameraName s) (debug s)
    (mkStreamOptions v (ffmpegOptions (streamOptions s)))
    (streamSession s).

Definition update_session (h : option pid) (s : StreamService)
  : StreamService :=
  mkStreamService (videoProcessor s) (cameraName s) (debug s)
    (streamOptions s) h.

(** The four audio flags that both the constructor and
    [configureStreamOptions] spread into the options. *)
Definition audio_bundle : list (string * JS.value) :=
  [("-codec:a", JS.Str "mp2"); ("-ar", JS.Str "44100");
   ("-ac", JS.Str "1"); ("-b:a", JS.Str "128k")].

(** The object literal of the constructor. *)
Definition base_options (vc : videoConfig) : JS.object :=
  [("-s", JS.Str (JS.ToString (vc_maxWidth vc) ++ "x"
                  ++ JS.ToString (vc_maxHeight vc)));
   ("-b:v", vc_maxBitrate vc);
   ("-r", vc_maxFPS vc);
   ("-bf", JS.Num 0);
   ("-preset", vc_encoderOptions vc);
   ("-threads", JS.Str "1");
   ("-loglevel", JS.Str "error")].

(** [new StreamService(camera, sessionService, socket)], with the configured
    [ConfigService.ui.options.videoProcessor]. *)
Definition constructor (processor : string) (cam : camera) : StreamService :=
  let vc := camera_videoConfig cam in
  let s := mkStreamService processor (name cam) (vc_debug vc)
             (mkStreamOptions (SourceString (vc_source vc)) (base_options vc))
             None in
  let s := if JS.truthy (vc_mapvideo vc)
           then update_options (JS.set "-map" (vc_mapvideo vc)) s else s in
  let s := if JS.truthy (vc_videoFilter vc)
           then update_options (JS.set "-filter:v" (vc_videoFilter vc)) s
           else s in
  if JS.truthy (vc_audio vc) then
    let s := update_options (JS.delete "-an") s in
    let s := update_options (fun o => JS.spread o audio_bundle) s in
    if JS.truthy (vc_mapaudio vc)
    then update_options (JS.set "-map" (vc_mapaudio vc)) s else s
  else s.

(** [cameraSettings.find((camera) => camera && camera.name === cameraName)];
    [None] entries of the array are its [null] elements. *)
Definition find_setting (cameraName : string)
  (cameraSettings : list (option cameraSetting)) : option cameraSetting :=
  match find (fun c => match c with
                       | Some c => JS.strict_eq (cs_name c) (JS.Str cameraName)
                       | None => false
                       end) cameraSettings with
  | Some c => c
  | None => None
  end.

(** [configureStreamOptions()], given what the database read returns. *)
Definition configureStreamOptions
  (cameraSettings : list (option cameraSetting)) (s : StreamService)
  : StreamService :=
  match find_setting (cameraName s) cameraSettings with
  | Some cameraSetting =>
      let s := if JS.truthy (cs_resolution cameraSetting)
               then update_options
                      (JS.set "-s" (cs_resolution cameraSetting)) s
               else s in
      if JS.truthy (cs_audio cameraSetting) then
        let s := update_options (JS.delete "-an") s in
        update_options (fun o => JS.spread o audio_bundle) s
      else
        let s := update_options (JS.delete "-codec:a") s in
        let s := update_options (JS.delete "-ar") s in
        let s := update_options (JS.delete "-ac") s in
        let s := update_options (JS.delete "-b:a") s in
        update_options (JS.set "-an" (JS.Str "")) s
  | None => s
  end.

(** The option set as it is when [configureStreamOptions] reaches its audio
    branch. *)
Definition with_resolution (c : cameraSetting) (o : JS.object) : JS.object :=
  if JS.truthy (cs_resolution c) then JS.set "-s" (cs_resolution c) o else o.

(** [setStreamOptions(options)] *)
Definition setStreamOptions (options : JS.object) (s : StreamService)
  : StreamService :=
  fold_left (fun s kv => update_options (JS.set (fst kv) (snd kv)) s)
            (JS.entries options) s.

(** [delStreamOptions(options)]; each element is used as a property key. *)
Definition delStreamOptions (options : list JS.value) (s : StreamService)
  : StreamService :=
  fold_left (fun s property =>
               update_options (JS.delete (JS.ToString property)) s)
            options s.

(** The loop of [start] that flattens the options; its guard
    [if (this.streamOptions.ffmpegOptions)] holds of every object. *)
Definition additionalFlags (o : JS.object) : list JS.value :=
  fold_left (fun acc key => acc ++ [JS.Str key; JS.get o key]) (JS.keys o) [].

(** The argument array of [start], after its [filter]. *)
Definition spawnOptions (tokens : list string) (o : JS.object)
  : list JS.value :=
  filter (fun key => negb (JS.strict_eq key (JS.Str "")))
    (map JS.Str tokens
     ++ [JS.Str "-f"; JS.Str "mpegts"; JS.Str "-codec:v"; JS.Str "mpeg1video"]
     ++ additionalFlags o
     ++ [JS.Str "-q"; JS.Str "1"; JS.Str "-hide_banner";
         JS.Str "-max_muxing_queue_size"; JS.Str "1024"; JS.Str "-"]).

(** The option set of a session. *)
Definition flags (s : StreamService) : JS.object :=
  ffmpegOptions (streamOptions s).

(** Names of the audio-bundle flags. *)
Definition audio_flags : list string := map fst audio_bundle.

(** How many times [Object.keys] lists [k]. *)
Definition count_key (o : JS.object) (k : string) : nat :=
  count_occ string_dec (JS.keys o) k.

(** Audio is off: no audio-bundle flag, and one bare [-an]. *)
Definition audio_off (o : JS.object) : Prop :=
  (forall k, In k audio_flags -> JS.lookup o k = None)
  /\ JS.lookup o "-an" = Some (JS.Str "")
  /\ count_key o "-an" = 1.

(** Audio is on: the whole bundle with its fixed values, and no [-an]. *)
Definition audio_on (o : JS.object) : Prop :=
  (forall k v, In (k, v) audio_bundle -> JS.lookup o k = Some v)
  /\ JS.lookup o "-an" = None.

(** [-an] and an audio-bundle flag are never both present. *)
Definition exclusive (o : JS.object) : Prop :=
  JS.has o "-an" = true -> forall k, In k audio_flags -> JS.has o k = false.

(** ** Sample configurations *)

Module Examples.

(** The configuration of the spec's example, without and with audio. *)
Definition quiet_config : videoConfig :=
  VideoConfig "-i rtsp://192.168.0.10/live" (JS.Num 1280) (JS.Num 720)
    (JS.Num 300) (JS.Num 15) (JS.Str "ultrafast")
    JS.Undefined JS.Undefined JS.Undefined (JS.Bool false) JS.Undefined.

Definition audio_config : videoConfig :=
  VideoConfig "-i rtsp://192.168.0.10/live" (JS.Num 1280) (JS.Num 720)
    (JS.Num 300) (JS.Num 15) (JS.Str "ultrafast")
    (JS.Str "0:0") (JS.Str "0:1") JS.Undefined (JS.Bool true) JS.Undefined.

Definition quiet_camera : camera := Camera "Front Door" quiet_config.
Definition audio_camera : camera := Camera "Front Door" audio_config.

(** Persisted settings: audio on with a resolution, audio off, and a record
    without an [audio] field. *)
Definition setting_on : cameraSetting :=
  CameraSetting (JS.Str "Front Door") (JS.Str "640x480") (JS.Bool true).
Definition setting_off : cameraSetting :=
  CameraSetting (JS.Str "Front Door") JS.Undefined (JS.Bool false).
Definition setting_bare : cameraSetting :=
  CameraSetting (JS.Str "Front Door") JS.Undefined JS.Undefined.
Definition other_setting : cameraSetting :=
  CameraSetting (JS.Str "Garage") JS.Undefined (JS.Bool true).

Definition db_on : list (option cameraSetting) :=
  [None; Some other_setting; Some setting_on].
Definition db_off : list (option cameraSetting) :=
  [Some setting_off; Some setting_on].
Definition db_bare : list (option cameraSetting) :=
  [Some other_setting; Some setting_bare].

End Examples.

(** ** The spec's reading of two notions, for comparison with the code *)

(** Whitespace: space, tab, line feed, vertical tab, form feed, carriage
    return. *)
Definition is_whitespace (c : ascii) : bool :=
  let n := N_of_ascii c in
  ((n =? 32) || (n =? 9) || (n =? 10) || (n =? 11) || (n =? 12) || (n =? 13))%N.

Fixpoint whitespace_fields (s : string) : list string :=
  match s with
  | EmptyString => [EmptyString]
  | String c rest =>
      if is_whitespace c then EmptyString :: whitespace_fields rest
      else match whitespace_fields rest with
           | [] => [String c EmptyString]
           | w :: ws => String c w :: ws
           end
  end.

(** The spec's "tokenizes [source] on whitespace". *)
Definition tokenize_whitespace (s : string) : list string :=
  filter (fun t => negb (t =? "")) (whitespace_fields s).

(** The spec's final assembly: the source tokenized on whitespace, the
    output-format and codec flags, the option set in insertion order as
    alternating name and value, the quality, banner and muxing flags and the
    stdout marker, with empty-string tokens dropped. *)
Definition spec_argument_list (src : string) (o : JS.object) : list JS.value :=
  filter (fun t => negb (JS.strict_eq t (JS.Str "")))
    (map JS.Str (tokenize_whitespace src)
     ++ [JS.Str "-f"; JS.Str "mpegts"; JS.Str "-codec:v"; JS.Str "mpeg1video"]
     ++ flat_map (fun kv => [JS.Str (fst kv); snd kv]) o
     ++ [JS.Str "-q"; JS.Str "1"; JS.Str "-hide_banner";
         JS.Str "-max_muxing_queue_size"; JS.Str "1024"; JS.Str "-"]).

(** The spec's "failure exit code": a process exit status other than 0. *)
Definition failure_code (code : JS.value) : bool :=
  match code with
  | JS.Num n => negb (n =? 0)%Z
  | _ => false
  end.

(** ** Observable effects *)

Inductive severity : Type := Debug | Warn | Error.

Inductive effect : Type :=
| Log (l : severity) (msg : string) (ctx : option string)
| RequestSession (granted : bool)
| CloseSession
| Spawn (p : pid) (command : string) (args : list JS.value)
| Kill (p : pid)
| SetTimeout (ms : Z).

(** The admission controller handed to the constructor. *)
Class SessionService (S : Type) : Type := {
  requestSession : S -> bool * S;
  closeSession : S -> S
}.

(** Modelled from the spec: the admission controller is not part of this
    source file; the spec gives it as a pool of slots with [tryAcquire] and
    [release]. This instance is a counting pool of [capacity] slots. *)
Record slotPool : Type := SlotPool {
  capacity : nat;
  active : nat
}.

#[export] Instance slotPool_service : SessionService slotPool := {
  requestSession p :=
    if (active p <? capacity p)%nat
    then (true, SlotPool (capacity p) (S (active p)))
    else (false, p);
  closeSession p := SlotPool (capacity p) (pred (active p))
}.

(** ** What [child_process.spawn] validates

    Before it creates the process, [spawn(file, args)] raises a [TypeError]
    when [file] contains a NUL character, when [file] is empty, or when an
    argument that is a string contains a NUL character. *)

Definition NUL : ascii := ascii_of_nat 0.

Definition without_nul (v : JS.value) : bool :=
  match v with
  | JS.Str s => negb (JS.contains NUL s)
  | _ => true
  end.

Definition spawn_accepts (command : string) (args : list JS.value) : bool :=
  negb (JS.contains NUL command) && negb (command =? "")
  && forallb without_nul args.

Definition spawn_error (command : string) : JS.error :=
  if JS.contains NUL command
  then JS.TypeError "The argument 'file' must be a string without null bytes"
  else if command =? ""
  then JS.TypeError "The argument 'file' cannot be empty. Received ''"
  else JS.TypeError "The argument 'args' must be a string without null bytes".

(** ** Reading a trace *)

Definition is_release (e : effect) : bool :=
  match e with CloseSession => true | _ => false end.

Definition is_request (e : effect) : bool :=
  match e with RequestSession _ => true | _ => false end.

Definition is_spawn (e : effect) : bool :=
  match e with Spawn _ _ _ => true | _ => false end.

Definition releases (t : list effect) : nat := List.length (filter is_release t).
Definition requests (t : list effect) : nat := List.length (filter is_request t).
Definition spawns (t : list effect) : nat := List.length (filter is_spawn t).

Definition is_grant (e : effect) : bool :=
  match e with RequestSession true => true | _ => false end.

Definition is_rejected (e : effect) : bool :=
  match e with
  | Spawn _ command args => negb (spawn_accepts command args)
  | _ => false
  end.

(** Granted requests, and calls of [spawn] that raised. *)
Definition grants (t : list effect) : nat := List.length (filter is_grant t).
Definition rejected_spawns (t : list effect) : nat :=
  List.length (filter is_rejected t).

(** The argument lists of the processes that a trace spawned. *)
Definition spawned_args (t : list effect) : list (list JS.value) :=
  flat_map (fun e => match e with Spawn _ _ args => [args] | _ => [] end) t.

Definition holds_process (s : StreamService) : bool :=
  match streamSession s with Some _ => true | None => false end.

(** The line that the [exit] handler logs. *)
Definition exit_log (code signal : JS.value) (camera : string) : effect :=
  if JS.strict_eq code (JS.Num 1)
  then Log Error ("Stream exited with error! (" ++ JS.ToString signal ++ ")")
           (Some camera)
  else Log Debug "Stream exit (expected)" (Some camera).

(** ** The service and its environment *)

Section Service.

Context {Ctl : Type} `{SessionService Ctl}.

(** The instance, its admission controller, the children that were spawned
    and have not yet emitted [exit], the pending [restart] timers, and the
    effects performed so far (oldest first). *)
Record world : Type := World {
  self : StreamService;
  sessions : Ctl;
  children : list pid;
  next_child : pid;
  timers : nat;
  trace : list effect
}.

Definition M (A : Type) : Type := world -> JS.completion A * world.

Definition ret {A} (a : A) : M A := fun w => (JS.Normal a, w).

Definition bind {A B} (c : M A) (k : A -> M B) : M B :=
  fun w =>
    match c w with
    | (JS.Normal a, w') => k a w'
    | (JS.Throw e, w') => (JS.Throw e, w')
    end.

Definition throw {A} (e : JS.error) : M A := fun w => (JS.Throw e, w).

Definition this : M StreamService := fun w => (JS.Normal (self w), w).

Definition emit (e : effect) : M unit :=
  fun w => (JS.Normal tt,
            World (self w) (sessions w) (children w) (next_child w) (timers w)
                  (trace w ++ [e])).

Definition assign (f : StreamService -> StreamService) : M unit :=
  fun w => (JS.Normal tt,
            World (f (self w)) (sessions w) (children w) (next_child w)
                  (timers w) (trace w)).

Definition request : M bool :=
  fun w =>
    let (granted, sessions') := requestSession (sessions w) in
    (JS.Normal granted,
     World (self w) sessions' (children w) (next_child w) (timers w)
           (trace w ++ [RequestSession granted])).

Definition close : M unit :=
  fun w =>
    (JS.Normal tt,
     World (self w) (closeSession (sessions w)) (children w) (next_child w)
           (timers w) (trace w ++ [CloseSession])).

(** [spawn(command, args, ...)]. The trace records the call, with the
    handle [p] it gives when it returns. When the arguments are accepted
    there is a new child whose [exit] event is pending; otherwise the call
    raises and there is no child. *)
Definition spawn (command : string) (args : list JS.value) : M pid :=
  fun w =>
    let p := next_child w in
    if spawn_accepts command args then
      (JS.Normal p,
       World (self w) (sessions w) (p :: children w) (S p) (timers w)
             (trace w ++ [Spawn p command args]))
    else
      (JS.Throw (spawn_error command),
       World (self w) (sessions w) (children w) (next_child w) (timers w)
             (trace w ++ [Spawn p command args])).

Definition setTimeout (ms : Z) : M unit :=
  fun w =>
    (JS.Normal tt,
     World (self w) (sessions w) (children w) (next_child w)
           (S (timers w)) (trace w ++ [SetTimeout ms])).

Definition log (l : severity) (msg : string) (ctx : option string) : M unit :=
  emit (Log l msg ctx).

Local Notation "x <- c ;; k" := (bind c (fun x => k))
  (at level 61, c at next level, right associativity).
Local Notation "c ;; k" := (bind c (fun _ => k))
  (at level 61, right associativity).

(** [start()] *)
Definition start : M unit :=
  s <- this ;;
  match streamSession s with
  | None =>
      allowStream <- request ;;
      if allowStream then
        tokens <- match source (streamOptions s) with
                  | SourceString src => ret (JS.split " " src)
                  | SourceArray _ =>
                      throw (JS.TypeError
                        "this.streamOptions.source.split is not a function")
                  end ;;
        let args := spawnOptions tokens (ffmpegOptions (streamOptions s)) in
        log Debug ("Stream command: " ++ videoProcessor s ++ " "
                   ++ JS.replace_all "," " " (JS.Array_toString args))
            (Some (cameraName s)) ;;
        p <- spawn (videoProcessor s) args ;;
        assign (update_session (Some p))
      else
        log Error "Not allowed to start stream. Session limit exceeded!"
            (Some (cameraName s))
  | Some _ => ret tt
  end.

(** The handler that [start] registers for the child's [exit] event. *)
Definition on_exit (code signal : JS.value) : M unit :=
  s <- this ;;
  (if JS.strict_eq code (JS.Num 1)
   then log Error ("Stream exited with error! (" ++ JS.ToString signal ++ ")")
            (Some (cameraName s))
   else log Debug "Stream exit (expected)" (Some (cameraName s))) ;;
  assign (update_session None) ;;
  close.

(** [stop()] *)
Definition stop : M unit :=
  s <- this ;;
  match streamSession s with
  | Some p =>
      log Debug "Stopping stream.." (Some (cameraName s)) ;;
      emit (Kill p)
  | None => ret tt
  end.

(** [restart()]; the deferred [start] runs when the timer fires. *)
Definition restart : M unit :=
  s <- this ;;
  match streamSession s with
  | Some _ => stop ;; setTimeout 1500
  | None => start
  end.

(** [setStreamSource(source)] *)
Definition setStreamSource (src : string) : M unit :=
  valid <- (fun w => (JS.String_call src "inludes" "-i", w)) ;;
  if JS.truthy valid
  then assign (update_source (SourceArray (JS.split " " src)))
  else log Warn ("Source " ++ src ++ " is not valid, skipping") None.

(** ** Events

    What can happen to a session: a call of one of its methods, the [exit]
    event of a child, or the firing of a [restart] timer. *)
Inductive event : Type :=
| CallConfigureStreamOptions (cameraSettings : list (option cameraSetting))
| CallStart
| CallStop
| CallRestart
| CallSetStreamSource (src : string)
| CallSetStreamOptions (options : JS.object)
| CallDelStreamOptions (options : list JS.value)
| Exit (p : pid) (code signal : JS.value)
| TimerFires.

Definition is_exit (e : event) : bool :=
  match e with Exit _ _ _ => true | _ => false end.

(** An event that does not assign [-an] or an audio-bundle flag through
    [setStreamOptions]. *)
Definition keeps_audio_keys (e : event) : bool :=
  match e with
  | CallSetStreamOptions options =>
      forallb (fun k => negb (JS.has options k)) ("-an" :: audio_flags)
  | _ => true
  end.

Definition remove_child (p : pid) (w : world) : world :=
  World (self w) (sessions w)
        (filter (fun q => negb (Nat.eqb q p)) (children w))
        (next_child w) (timers w) (trace w).

Definition drop_timer (w : world) : world :=
  World (self w) (sessions w) (children w) (next_child w) (pred (timers w))
        (trace w).

(** One event. [None] when the environment cannot produce it: a child emits
    [exit] once, and only a pending timer fires. An exception goes to the
    caller; the session keeps the state it had when it was raised. *)
Definition step (w : world) (e : event) : option world :=
  match e with
  | CallConfigureStreamOptions db =>
      Some (snd (assign (configureStreamOptions db) w))
  | CallStart => Some (snd (start w))
  | CallStop => Some (snd (stop w))
  | CallRestart => Some (snd (restart w))
  | CallSetStreamSource src => Some (snd (setStreamSource src w))
  | CallSetStreamOptions options =>
      Some (snd (assign (setStreamOptions options) w))
  | CallDelStreamOptions options =>
      Some (snd (assign (delStreamOptions options) w))
  | Exit p code signal =>
      if existsb (Nat.eqb p) (children w)
      then Some (snd (on_exit code signal (remove_child p w)))
      else None
  | TimerFires =>
      match timers w with
      | O => None
      | S _ => Some (snd (start (drop_timer w)))
      end
  end.

Fixpoint run (w : world) (es : list event) : option world :=
  match es with
  | [] => Some w
  | e :: rest =>
      match step w e with
      | Some w' => run w' rest
      | None => None
      end
  end.

(** The world right after construction. *)
Definition init (processor : string) (cam : camera) (sessions0 : Ctl) : world :=
  World (constructor processor cam) sessions0 [] O O
        [Log Debug "Initializing camera stream" (Some (name cam))].

(** What every reachable world satisfies: the source is still a string,
    the live children are exactly the handle of the session, and every
    granted slot was released by an [exit], or is held by the live child,
    or was granted to a [start] whose [spawn] raised. *)
Definition inv (w : world) : Prop :=
  (exists src, source (streamOptions (self w)) = SourceString src)
  /\ children w = match streamSession (self w) with
                  | Some p => [p]
                  | None => []
                  end
  /\ grants (trace w)
     = releases (trace w) + (if holds_process (self w) then 1 else 0)
       + rejected_spawns (trace w).

(** The controller after the calls that a trace records, made in order on
    the controller [c]; [None] when a recorded answer is not the answer the
    controller gives at that point. *)
Fixpoint replay (c : Ctl) (t : list effect) : option Ctl :=
  match t with
  | [] => Some c
  | RequestSession answer :: rest =>
      if Bool.eqb answer (fst (requestSession c))
      then replay (snd (requestSession c)) rest
      else None
  | CloseSession :: rest => replay (closeSession c) rest
  | _ :: rest => replay c rest
  end.

End Service.

Arguments world : clear implicits.
Arguments M : clear implicits.

(** ** Sample sessions *)

Module Scenario.

(** A fresh session over a pool with one free slot, and over a full pool. *)
Definition fresh : world slotPool :=
  init "ffmpeg" Examples.quiet_camera (SlotPool 1 0).

Definition fresh_full : world slotPool :=
  init "ffmpeg" Examples.quiet_camera (SlotPool 1 1).

(** After [start()] was granted its slot. *)
Definition running : world slotPool := snd (start fresh).

(** After the child of [running] exited with code 1. *)
Definition failed : world slotPool :=
  snd (on_exit (JS.Num 1) JS.Null (remove_child 0 running)).

(** A fresh session whose configured processor is the empty string, over
    a pool with one free slot. *)
Definition no_processor : world slotPool :=
  init "" Examples.quiet_camera (SlotPool 1 0).

(** A source whose two words are separated by a tab. *)
Definition tab_source : string :=
  "-i" ++ String (ascii_of_nat 9) "rtsp://192.168.0.10/live".

(** The options of the quiet camera after [setStreamOptions({'0': 'x'})]. *)
Definition indexed_options : JS.object :=
  flags (setStreamOptions [("0", JS.Str "x")]
           (constructor "ffmpeg" Examples.quiet_camera)).

(** A camera whose source is [tab_source], started. *)
Definition tab_camera : camera :=
  Camera "Front Door"
    (VideoConfig tab_source (JS.Num 1280) (JS.Num 720) (JS.Num 300)
       (JS.Num 15) (JS.Str "ultrafast") JS.Undefined JS.Undefined
       JS.Undefined (JS.Bool false) JS.Undefined).

Definition tab_started : world slotPool :=
  snd (start (init "ffmpeg" tab_camera (SlotPool 1 0))).

(** The quiet camera, started after [setStreamOptions({'0': 'x'})]. *)
Definition indexed_started : world slotPool :=
  snd (start (snd (assign (setStreamOptions [("0", JS.Str "x")]) fresh))).

End Scenario.

(** ** The output relay

    The two [data] handlers that [start] registers on the child's streams.
    They read [cameraName] and [debug] and change nothing; a chunk is taken
    as the text that [data.toString()] gives. *)

Inductive relayed : Type :=
| SocketEmit (room event data : string)
| RelayLog (l : severity) (msg : string) (ctx : option string).

Definition CR : ascii := ascii_of_nat 13.
Definition LF : ascii := ascii_of_nat 10.

(** [text.replace(/(\r\n|\n|\r)/gm, '')]: at each position the pattern takes
    a carriage return with the line feed after it, or a single line feed,
    or a single carriage return. *)
Fixpoint strip_line_endings (text : string) : string :=
  match text with
  | EmptyString => EmptyString
  | String c rest =>
      if Ascii.eqb c CR then
        match rest with
        | String c' rest' =>
            if Ascii.eqb c' LF then strip_line_endings rest'
            else strip_line_endings rest
        | EmptyString => strip_line_endings rest
        end
      else if Ascii.eqb c LF then strip_line_endings rest
      else String c (strip_line_endings rest)
  end.

(** The handler of [streamSession.stdout]'s [data] event. *)
Definition on_stdout (s : StreamService) (data : string) : list relayed :=
  SocketEmit ("stream/" ++ cameraName s) (cameraName s) data
  :: (if JS.truthy (debug s)
      then [RelayLog Debug data (Some (cameraName s))]
      else []).

(** The handler of [streamSession.stderr]'s [data] event. *)
Definition on_stderr (s : StreamService) (data : string) : list relayed :=
  [RelayLog Error (strip_line_endings data) (Some (cameraName s))].

(** Two sessions that differ at most in their option set. *)
Definition same_but_flags (s s' : StreamService) : Prop :=
  videoProcessor s' = videoProcessor s
  /\ cameraName s' = cameraName s
  /\ debug s' = debug s
  /\ source (streamOptions s') = source (streamOptions s)
  /\ streamSession s' = streamSession s.

(** The fields that no event changes. *)
Definition fixed_fields (s : StreamService)
  : string * string * JS.value * sourceValue :=
  (videoProcessor s, cameraName s, debug s, source (streamOptions s)).

(** An object none of whose keys is an array index or [__proto__]. *)
Definition plain_keys (options : JS.object) : bool :=
  forallb (fun k => negb (JS.is_index k) && negb (k =? "__proto__"))
          (map fst options).

(** An element of [settings.cameras] that [find] passes over. *)
Definition passed_over (cameraName : string) (e : option cameraSetting)
  : Prop :=
  match e with
  | None => True
  | Some c => cs_name c <> JS.Str cameraName
  end.

(** ** Further sample data *)

Module Samples.

(** A camera with a video filter and a video map, audio off. *)
Definition filtered_camera : camera :=
  Camera "Garage"
    (VideoConfig "-i rtsp://192.168.0.11/live" (JS.Num 640) (JS.Num 480)
       (JS.Num 200) (JS.Num 10) (JS.Str "veryfast")
       (JS.Str "0:0") (JS.Str "0:1") (JS.Str "scale=640:480,fps=10")
       (JS.Bool false) (JS.Bool true)).

(** Settings in which no record is for "Front Door". *)
Definition db_others : list (option cameraSetting) :=
  [None; Some Examples.other_setting].

(** Two records for "Front Door"; the first one has audio off. *)
Definition db_twice : list (option cameraSetting) :=
  [None; Some Examples.other_setting; Some Examples.setting_off;
   Some Examples.setting_on].

(** Options that a caller merges in: a new flag and a new frame rate. *)
Definition tune : JS.object :=
  [("-tune", JS.Str "zerolatency"); ("-r", JS.Num 25)].

Definition only_new : JS.object :=
  [("-tune", JS.Str "zerolatency"); ("-g", JS.Num 30)].

(** A chunk of diagnostic output with both kinds of line ending. *)
Definition noisy : string :=
  "frame=1" ++ String CR (String LF ("frame=2" ++ String LF "done")).

End Samples.


(** * Properties *)

(** ** The model on the documented examples *)

Example split_spaces :
  JS.split " " "-i  rtsp://a" = ["-i"; ""; "rtsp://a"].
Proof. reflexivity. Qed.

Example split_empty : JS.split " " "" = [""].
Proof. reflexivity. Qed.

Example keys_indices_first :
  JS.keys [("-s", JS.Str "1x1"); ("10", JS.Null); ("-r", JS.Num 5);
           ("9", JS.Null); ("01", JS.Null)]
  = ["9"; "10"; "-s"; "-r"; "01"].
Proof. reflexivity. Qed.

Example quiet_flags :
  flags (constructor "ffmpeg" Examples.quiet_camera)
  = [("-s", JS.Str "1280x720"); ("-b:v", JS.Num 300); ("-r", JS.Num 15);
     ("-bf", JS.Num 0); ("-preset", JS.Str "ultrafast");
     ("-threads", JS.Str "1"); ("-loglevel", JS.Str "error")].
Proof. reflexivity. Qed.

Example override_flags :
  flags (configureStreamOptions Examples.db_on
           (constructor "ffmpeg" Examples.quiet_camera))
  = [("-s", JS.Str "640x480"); ("-b:v", JS.Num 300); ("-r", JS.Num 15);
     ("-bf", JS.Num 0); ("-preset", JS.Str "ultrafast");
     ("-threads", JS.Str "1"); ("-loglevel", JS.Str "error");
     ("-codec:a", JS.Str "mp2"); ("-ar", JS.Str "44100");
     ("-ac", JS.Str "1"); ("-b:a", JS.Str "128k")].
Proof. reflexivity. Qed.

Example bare_flag_is_emitted :
  spawnOptions ["-i"; "x"] [("-an", JS.Str "")]
  = [JS.Str "-i"; JS.Str "x"; JS.Str "-f"; JS.Str "mpegts";
     JS.Str "-codec:v"; JS.Str "mpeg1video"; JS.Str "-an";
     JS.Str "-q"; JS.Str "1"; JS.Str "-hide_banner";
     JS.Str "-max_muxing_queue_size"; JS.Str "1024"; JS.Str "-"].
Proof. reflexivity. Qed.

Example stop_then_exit :
  option_map (fun w => (streamSession (self w), sessions w, spawns (trace w),
                        releases (trace w)))
    (run Scenario.fresh
       [CallStart; CallStart; CallStop;
        Exit 0 JS.Null (JS.Str "SIGTERM"); CallStart])
  = Some (Some 1, SlotPool 1 1, 2, 1).
Proof. reflexivity. Qed.

(** ** Objects *)

Module JSFacts.
Import JS.

Lemma lookup_set_same k v o : lookup (set k v o) k = Some v.
Proof.
  induction o as [|[k' v'] o IH]; simpl.
  - now rewrite String.eqb_refl.
  - destruct (k' =? k) eqn:E; simpl.
    + now rewrite String.eqb_refl.
    + now rewrite E.
Qed.

Lemma lookup_set_other k v o k' : k <> k' -> lookup (set k v o) k' = lookup o k'.
Proof.
  intros Hne. induction o as [|[k0 v0] o IH]; simpl.
  - destruct (k =? k') eqn:E; [apply String.eqb_eq in E; contradiction|reflexivity].
  - destruct (k0 =? k) eqn:E; simpl.
    + apply String.eqb_eq in E; subst k0.
      destruct (k =? k') eqn:E'; [apply String.eqb_eq in E'; contradiction|reflexivity].
    + now rewrite IH.
Qed.

Lemma lookup_delete_same k o : lookup (delete k o) k = None.
Proof.
  induction o as [|[k0 v0] o IH]; simpl; [reflexivity|].
  destruct (k0 =? k) eqn:E; simpl; [assumption|now rewrite E].
Qed.

Lemma lookup_delete_other k o k' : k <> k' -> lookup (delete k o) k' = lookup o k'.
Proof.
  intros Hne. induction o as [|[k0 v0] o IH]; simpl; [reflexivity|].
  destruct (k0 =? k) eqn:E; simpl.
  - apply String.eqb_eq in E; subst k0.
    destruct (k =? k') eqn:E'; [apply String.eqb_eq in E'; contradiction|assumption].
  - now rewrite IH.
Qed.

Lemma lookup_None_iff o k : lookup o k = None <-> ~ In k (map fst o).
Proof.
  induction o as [|[k0 v0] o IH]; simpl; [tauto|].
  destruct (k0 =? k) eqn:E.
  - apply String.eqb_eq in E. split; [discriminate|intros Hn; exfalso; auto].
  - apply String.eqb_neq in E. rewrite IH. tauto.
Qed.

Lemma In_keys_set k v o k' :
  In k' (map fst (set k v o)) <-> k' = k \/ In k' (map fst o).
Proof.
  induction o as [|[k0 v0] o IH]; simpl.
  - intuition.
  - destruct (k0 =? k) eqn:E; simpl.
    + apply String.eqb_eq in E; subst. intuition.
    + rewrite IH. intuition.
Qed.

Lemma wf_nil : wf [].
Proof. constructor. Qed.

Lemma wf_set k v o : wf o -> wf (set k v o).
Proof.
  unfold wf. induction o as [|[k0 v0] o IH]; simpl; intros Hwf.
  - constructor; [simpl; tauto|constructor].
  - inversion Hwf as [|? ? Hnin Hnd]; subst.
    destruct (k0 =? k) eqn:E; simpl.
    + apply String.eqb_eq in E; subst. now constructor.
    + apply String.eqb_neq in E. constructor; [|auto].
      rewrite In_keys_set. intros [->|Hin]; [congruence|contradiction].
Qed.

Lemma wf_delete k o : wf o -> wf (delete k o).
Proof.
  unfold wf, delete. induction o as [|[k0 v0] o IH]; simpl; intros Hwf; [assumption|].
  inversion Hwf as [|? ? Hnin Hnd]; subst.
  destruct (k0 =? k); simpl; [auto|].
  constructor; [|auto].
  intros Hin. apply Hnin. apply in_map_iff in Hin as [[a b] [Hab Hin]].
  apply filter_In in Hin as [Hin _]. simpl in Hab; subst.
  apply in_map_iff. now exists (k0, b).
Qed.

Lemma wf_assign_all l o : wf o -> wf (assign_all l o).
Proof.
  revert o. induction l as [|[k v] l IH]; simpl; intros o Hwf; [assumption|].
  apply IH. now apply wf_set.
Qed.

Lemma lookup_assign_all_notin l o k :
  ~ In k (map fst l) -> lookup (assign_all l o) k = lookup o k.
Proof.
  revert o. induction l as [|[k0 v0] l IH]; simpl; intros o Hnin; [reflexivity|].
  unfold assign_all in *. simpl. rewrite IH by tauto.
  apply lookup_set_other. intros ->. tauto.
Qed.

Lemma lookup_assign_all_app l1 l2 o k :
  ~ In k (map fst l2) ->
  lookup (assign_all (l1 ++ l2) o) k = lookup (assign_all l1 o) k.
Proof.
  intros Hnin. unfold assign_all. rewrite fold_left_app.
  now apply lookup_assign_all_notin.
Qed.

(** *** [Object.keys] lists every key once *)

Lemma insert_index_perm n k l :
  Permutation (map snd (insert_index n k l)) (k :: map snd l).
Proof.
  induction l as [|[m k'] l IH]; simpl; [reflexivity|].
  destruct (n <=? m)%N; simpl; [reflexivity|].
  rewrite IH. apply perm_swap.
Qed.

Lemma keys_perm o : Permutation (keys o) (map fst o).
Proof.
  unfold keys, string_keys, is_index.
  induction o as [|[k v] o IH]; simpl; [reflexivity|].
  destruct (array_index k) eqn:E; simpl.
  - rewrite insert_index_perm. simpl. now apply perm_skip.
  - eapply Permutation_trans; [symmetry; apply Permutation_middle|].
    now apply perm_skip.
Qed.

Lemma In_keys o k : In k (keys o) <-> In k (map fst o).
Proof.
  split; apply Permutation_in; [|symmetry]; apply keys_perm.
Qed.

Lemma keys_NoDup o : wf o -> NoDup (keys o).
Proof.
  intros Hwf. eapply Permutation_NoDup; [symmetry; apply keys_perm|exact Hwf].
Qed.

(** Without array-index keys, [Object.keys] is the creation order. *)
Lemma index_keys_none o :
  forallb (fun k => negb (is_index k)) (map fst o) = true ->
  index_keys o = [].
Proof.
  unfold is_index.
  induction o as [|[k v] o IH]; simpl; [reflexivity|].
  destruct (array_index k); simpl; [discriminate|exact IH].
Qed.

Lemma filter_all {A} (f : A -> bool) l : forallb f l = true -> filter f l = l.
Proof.
  induction l as [|a l IH]; simpl; [reflexivity|].
  destruct (f a); simpl; [|discriminate].
  intros Hall. now rewrite IH.
Qed.

Lemma keys_no_index o :
  forallb (fun k => negb (is_index k)) (map fst o) = true ->
  keys o = map fst o.
Proof.
  intros Hall. unfold keys, string_keys.
  rewrite (index_keys_none o Hall). simpl. now apply filter_all.
Qed.

Lemma assign_all_snoc l kv o :
  assign_all (l ++ [kv]) o = set (fst kv) (snd kv) (assign_all l o).
Proof. unfold assign_all. now rewrite fold_left_app. Qed.

Lemma lookup_assign_all l o k :
  lookup (assign_all l o) k =
  match lookup (assign_all l []) k with
  | Some v => Some v
  | None => lookup o k
  end.
Proof.
  induction l as [|[k0 v0] l IH] using rev_ind; [reflexivity|].
  rewrite !assign_all_snoc. simpl.
  destruct (string_dec k0 k) as [->|Hne].
  - now rewrite !lookup_set_same.
  - now rewrite !lookup_set_other.
Qed.

Lemma lookup_assign_entries (g : string -> value) ks k :
  lookup (assign_all (map (fun k => (k, g k)) ks) []) k =
  if in_dec string_dec k ks then Some (g k) else None.
Proof.
  induction ks as [|k0 ks IH] using rev_ind; [reflexivity|].
  rewrite map_app. simpl. rewrite assign_all_snoc. simpl.
  destruct (string_dec k0 k) as [->|Hne].
  - rewrite lookup_set_same.
    destruct (in_dec string_dec k (ks ++ [k])) as [_|Hn]; [reflexivity|].
    exfalso. apply Hn. apply in_or_app. right. now left.
  - rewrite lookup_set_other by assumption. rewrite IH.
    destruct (in_dec string_dec k ks) as [Hin|Hnin];
      destruct (in_dec string_dec k (ks ++ [k0])) as [Hin'|Hnin'];
      try reflexivity.
    + exfalso. apply Hnin'. apply in_or_app. now left.
    + exfalso. apply in_app_or in Hin' as [?|[?|[]]]; [contradiction|congruence].
Qed.

(** The copy that a spread makes has the properties of the original. *)
Lemma lookup_copy o k : lookup (assign_all (entries o) []) k = lookup o k.
Proof.
  unfold entries. rewrite lookup_assign_entries.
  destruct (in_dec string_dec k (keys o)) as [Hin|Hnin].
  - unfold get. destruct (lookup o k) eqn:E; [reflexivity|].
    exfalso. apply lookup_None_iff in E. apply E. now apply In_keys.
  - symmetry. apply lookup_None_iff. intros Hin. apply Hnin. now apply In_keys.
Qed.

Lemma lookup_spread o more k :
  lookup (spread o more) k =
  match lookup (assign_all more []) k with
  | Some v => Some v
  | None => lookup o k
  end.
Proof.
  unfold spread, assign_all. rewrite fold_left_app.
  fold (assign_all (entries o) []).
  fold (assign_all more (assign_all (entries o) [])).
  rewrite lookup_assign_all. now rewrite lookup_copy.
Qed.

Lemma wf_spread o more : wf (spread o more).
Proof. apply (wf_assign_all (entries o ++ more) []), wf_nil. Qed.

Lemma has_lookup o k : has o k = true <-> lookup o k <> None.
Proof. unfold has. destruct (lookup o k); split; congruence. Qed.

Lemma has_false o k : has o k = false <-> lookup o k = None.
Proof. unfold has. destruct (lookup o k); split; congruence. Qed.

End JSFacts.

(** ** The option layers *)

Module OptionLayer.
Import JS JSFacts.

Ltac key_neq := let H := fresh in intro H; discriminate H.

Ltac lookup_step :=
  first [ rewrite lookup_set_same
        | rewrite lookup_delete_same
        | rewrite lookup_set_other by key_neq
        | rewrite lookup_delete_other by key_neq ].

Lemma flags_update_options f s : flags (update_options f s) = f (flags s).
Proof. reflexivity. Qed.

Lemma count_key_one o k v : wf o -> lookup o k = Some v -> count_key o k = 1.
Proof.
  intros Hwf Hl. unfold count_key. apply NoDup_count_occ'.
  - now apply keys_NoDup.
  - apply In_keys. destruct (in_dec string_dec k (map fst o)) as [Hin|Hnin];
      [assumption|]. apply lookup_None_iff in Hnin. congruence.
Qed.

(** What [find] returns is an element of the array whose name is the
    camera's. *)
Lemma find_setting_Some n db c :
  find_setting n db = Some c -> In (Some c) db /\ cs_name c = Str n.
Proof.
  unfold find_setting.
  destruct (find _ db) as [[c'|]|] eqn:E; try discriminate.
  intros [= ->]. apply find_some in E as [Hin Heq]. split; [assumption|].
  destruct (cs_name c); simpl in Heq; try discriminate.
  apply String.eqb_eq in Heq. now subst.
Qed.

Lemma configureStreamOptions_cameraName db s :
  cameraName (configureStreamOptions db s) = cameraName s.
Proof.
  unfold configureStreamOptions.
  destruct (find_setting _ db) as [c|]; [|reflexivity].
  destruct (truthy (cs_resolution c)), (truthy (cs_audio c)); reflexivity.
Qed.

Lemma configureStreamOptions_on db s c :
  find_setting (cameraName s) db = Some c ->
  truthy (cs_audio c) = true ->
  flags (configureStreamOptions db s)
  = spread (delete "-an" (with_resolution c (flags s))) audio_bundle.
Proof.
  intros Hf Ha. unfold configureStreamOptions, with_resolution.
  rewrite Hf, Ha. now destruct (truthy (cs_resolution c)).
Qed.

Lemma configureStreamOptions_off db s c :
  find_setting (cameraName s) db = Some c ->
  truthy (cs_audio c) = false ->
  flags (configureStreamOptions db s)
  = set "-an" (Str "")
      (delete "-b:a" (delete "-ac" (delete "-ar" (delete "-codec:a"
         (with_resolution c (flags s)))))).
Proof.
  intros Hf Ha. unfold configureStreamOptions, with_resolution.
  rewrite Hf, Ha. now destruct (truthy (cs_resolution c)).
Qed.

Lemma configureStreamOptions_absent db s :
  find_setting (cameraName s) db = None -> configureStreamOptions db s = s.
Proof. intros Hf. unfold configureStreamOptions. now rewrite Hf. Qed.

Lemma wf_with_resolution c o : wf o -> wf (with_resolution c o).
Proof.
  unfold with_resolution. destruct (truthy _); [apply wf_set|trivial].
Qed.

(** The disabling branch leaves no audio-bundle flag and a bare [-an]. *)
Lemma disabled_lookups o :
  let o' := set "-an" (Str "")
              (delete "-b:a" (delete "-ac" (delete "-ar"
                 (delete "-codec:a" o)))) in
  (forall k, In k audio_flags -> lookup o' k = None)
  /\ lookup o' "-an" = Some (Str "").
Proof.
  simpl. split.
  - intros k [<-|[<-|[<-|[<-|[]]]]]; repeat lookup_step; reflexivity.
  - now lookup_step.
Qed.

Lemma disabled_audio_off o :
  wf o ->
  audio_off (set "-an" (Str "")
               (delete "-b:a" (delete "-ac" (delete "-ar"
                  (delete "-codec:a" o))))).
Proof.
  intros Hwf. destruct (disabled_lookups o) as [Hb Han].
  repeat split; [exact Hb|exact Han|].
  eapply count_key_one; [|exact Han].
  apply wf_set. now repeat apply wf_delete.
Qed.

(** The enabling branch installs the whole bundle and leaves no [-an]. *)
Lemma enabled_audio_on o : audio_on (spread (delete "-an" o) audio_bundle).
Proof.
  split.
  - intros k v [[= <- <-]|[[= <- <-]|[[= <- <-]|[[= <- <-]|[]]]]];
      now rewrite lookup_spread.
  - rewrite lookup_spread. simpl. apply lookup_delete_same.
Qed.

End OptionLayer.

(** ** Audio in the override layer and in the constructor *)

(** C5. Whatever the option set of the session, configuring with a matching
    record whose audio is on and then with one whose audio is off leaves no
    audio-bundle flag ([-codec:a], [-ar], [-ac], [-b:a]) and exactly one
    bare [-an]; configuring off and then on leaves the whole bundle and no
    [-an]. *)
Theorem audio_toggle (s : StreamService) (on off : list (option cameraSetting))
    (c_on c_off : cameraSetting) :
  find_setting (cameraName s) on = Some c_on ->
  JS.truthy (cs_audio c_on) = true ->
  find_setting (cameraName s) off = Some c_off ->
  JS.truthy (cs_audio c_off) = false ->
  audio_off (flags (configureStreamOptions off (configureStreamOptions on s)))
  /\ audio_on (flags (configureStreamOptions on (configureStreamOptions off s))).
Proof.
  intros Hon Ton Hoff Toff. split.
  - rewrite (OptionLayer.configureStreamOptions_off off _ c_off)
      by (rewrite ?OptionLayer.configureStreamOptions_cameraName; assumption).
    apply OptionLayer.disabled_audio_off, OptionLayer.wf_with_resolution.
    rewrite (OptionLayer.configureStreamOptions_on on s c_on) by assumption.
    apply JSFacts.wf_spread.
  - rewrite (OptionLayer.configureStreamOptions_on on _ c_on)
      by (rewrite ?OptionLayer.configureStreamOptions_cameraName; assumption).
    apply OptionLayer.enabled_audio_on.
Qed.

Lemma audio_toggle_witness :
  audio_off (flags (configureStreamOptions Examples.db_off
                      (configureStreamOptions Examples.db_on
                         (constructor "ffmpeg" Examples.quiet_camera))))
  /\ audio_on (flags (configureStreamOptions Examples.db_on
                        (configureStreamOptions Examples.db_off
                           (constructor "ffmpeg" Examples.quiet_camera)))).
Proof.
  apply (audio_toggle (constructor "ffmpeg" Examples.quiet_camera)
           Examples.db_on Examples.db_off
           Examples.setting_on Examples.setting_off); reflexivity.
Defined.

(** C10. When the first record that matches the camera name has an [audio]
    field that is absent or otherwise falsy, [configureStreamOptions] removes
    every audio-bundle flag and installs the bare [-an], whatever the session
    held before, audio from the base configuration included. *)
Theorem configure_falsy_audio (s : StreamService)
    (db : list (option cameraSetting)) (c : cameraSetting) :
  find_setting (cameraName s) db = Some c ->
  JS.truthy (cs_audio c) = false ->
  (forall k, In k audio_flags ->
             JS.lookup (flags (configureStreamOptions db s)) k = None)
  /\ JS.lookup (flags (configureStreamOptions db s)) "-an" = Some (JS.Str "").
Proof.
  intros Hf Ha.
  rewrite (OptionLayer.configureStreamOptions_off db s c Hf Ha).
  apply OptionLayer.disabled_lookups.
Qed.

Lemma configure_falsy_audio_witness :
  audio_on (flags (constructor "ffmpeg" Examples.audio_camera))
  /\ cs_audio Examples.setting_bare = JS.Undefined
  /\ (forall k, In k audio_flags ->
        JS.lookup (flags (configureStreamOptions Examples.db_bare
                            (constructor "ffmpeg" Examples.audio_camera))) k
        = None)
  /\ JS.lookup (flags (configureStreamOptions Examples.db_bare
                         (constructor "ffmpeg" Examples.audio_camera))) "-an"
     = Some (JS.Str "").
Proof.
  split; [|split; [reflexivity|]].
  - split; [|reflexivity].
    intros k v [[= <- <-]|[[= <- <-]|[[= <- <-]|[[= <- <-]|[]]]]]; reflexivity.
  - apply (configure_falsy_audio (constructor "ffmpeg" Examples.audio_camera)
             Examples.db_bare Examples.setting_bare); reflexivity.
Defined.

(** C9. With audio enabled and both [mapvideo] and [mapaudio] set, the
    constructed option set has exactly one [-map] entry and its value is the
    audio map: the video map is overwritten. *)
Theorem constructor_map_is_audio (processor : string) (cam : camera) :
  JS.truthy (vc_audio (camera_videoConfig cam)) = true ->
  JS.truthy (vc_mapvideo (camera_videoConfig cam)) = true ->
  JS.truthy (vc_mapaudio (camera_videoConfig cam)) = true ->
  JS.lookup (flags (constructor processor cam)) "-map"
  = Some (vc_mapaudio (camera_videoConfig cam))
  /\ count_key (flags (constructor processor cam)) "-map" = 1.
Proof.
  intros Ha Hv Hm.
  assert (Hl : JS.lookup (flags (constructor processor cam)) "-map"
               = Some (vc_mapaudio (camera_videoConfig cam))
               /\ JS.wf (flags (constructor processor cam))).
  { unfold constructor. rewrite Ha, Hv, Hm.
    destruct (JS.truthy (vc_videoFilter (camera_videoConfig cam)));
      rewrite !OptionLayer.flags_update_options;
      (split; [apply JSFacts.lookup_set_same
              |apply JSFacts.wf_set, JSFacts.wf_spread]). }
  destruct Hl as [Hl Hwf]. split; [exact Hl|].
  now apply (OptionLayer.count_key_one _ _ _ Hwf Hl).
Qed.

Lemma constructor_map_is_audio_witness :
  JS.lookup (flags (constructor "ffmpeg" Examples.audio_camera)) "-map"
  = Some (JS.Str "0:1")
  /\ count_key (flags (constructor "ffmpeg" Examples.audio_camera)) "-map" = 1.
Proof.
  apply (constructor_map_is_audio "ffmpeg" Examples.audio_camera); reflexivity.
Defined.

(** ** The methods, one equation each *)

Section Methods.

Context {Ctl : Type} `{SessionService Ctl}.

Lemma start_running (w : world Ctl) p :
  streamSession (self w) = Some p -> start w = (JS.Normal tt, w).
Proof.
  intros Hs. unfold start, bind, this, ret. now rewrite Hs.
Qed.

Lemma start_denied (w : world Ctl) c :
  streamSession (self w) = None ->
  requestSession (sessions w) = (false, c) ->
  start w =
  (JS.Normal tt,
   World (self w) c (children w) (next_child w) (timers w)
     (trace w ++ [RequestSession false;
                  Log Error "Not allowed to start stream. Session limit exceeded!"
                      (Some (cameraName (self w)))])).
Proof.
  intros Hs Hr. unfold start, bind, this, request, log, emit.
  rewrite Hs, Hr. cbn. now rewrite <- app_assoc.
Qed.

Lemma start_granted (w : world Ctl) c src :
  streamSession (self w) = None ->
  requestSession (sessions w) = (true, c) ->
  source (streamOptions (self w)) = SourceString src ->
  spawn_accepts (videoProcessor (self w))
    (spawnOptions (JS.split " " src) (flags (self w))) = true ->
  start w =
  (JS.Normal tt,
   World (update_session (Some (next_child w)) (self w)) c
     (next_child w :: children w) (S (next_child w)) (timers w)
     (trace w ++
      [RequestSession true;
       Log Debug ("Stream command: " ++ videoProcessor (self w) ++ " "
                  ++ JS.replace_all "," " "
                       (JS.Array_toString
                          (spawnOptions (JS.split " " src) (flags (self w)))))
           (Some (cameraName (self w)));
       Spawn (next_child w) (videoProcessor (self w))
             (spawnOptions (JS.split " " src) (flags (self w)))])).
Proof.
  intros Hs Hr Hsrc Hacc.
  unfold start, bind, this, request, log, emit, spawn, assign, ret.
  rewrite Hs, Hr, Hsrc.
  cbn -[spawnOptions JS.split JS.Array_toString JS.replace_all String.append
        spawn_accepts].
  fold (flags (self w)). rewrite Hacc.
  cbn -[spawnOptions JS.split JS.Array_toString JS.replace_all String.append].
  now rewrite <- !app_assoc.
Qed.

(** A granted [start] whose [spawn] raises: the exception goes to the
    caller after the slot was taken, and there is neither handle nor
    child. *)
Lemma start_rejected (w : world Ctl) c src :
  streamSession (self w) = None ->
  requestSession (sessions w) = (true, c) ->
  source (streamOptions (self w)) = SourceString src ->
  spawn_accepts (videoProcessor (self w))
    (spawnOptions (JS.split " " src) (flags (self w))) = false ->
  start w =
  (JS.Throw (spawn_error (videoProcessor (self w))),
   World (self w) c (children w) (next_child w) (timers w)
     (trace w ++
      [RequestSession true;
       Log Debug ("Stream command: " ++ videoProcessor (self w) ++ " "
                  ++ JS.replace_all "," " "
                       (JS.Array_toString
                          (spawnOptions (JS.split " " src) (flags (self w)))))
           (Some (cameraName (self w)));
       Spawn (next_child w) (videoProcessor (self w))
             (spawnOptions (JS.split " " src) (flags (self w)))])).
Proof.
  intros Hs Hr Hsrc Hrej.
  unfold start, bind, this, request, log, emit, spawn, assign, ret.
  rewrite Hs, Hr, Hsrc.
  cbn -[spawnOptions JS.split JS.Array_toString JS.replace_all String.append
        spawn_accepts spawn_error].
  fold (flags (self w)). rewrite Hrej.
  cbn -[spawnOptions JS.split JS.Array_toString JS.replace_all String.append
        spawn_error].
  now rewrite <- !app_assoc.
Qed.

(** What a granted [start] records, whether [spawn] returns or raises. *)
Lemma start_granted_trace (w : world Ctl) c src :
  streamSession (self w) = None ->
  requestSession (sessions w) = (true, c) ->
  source (streamOptions (self w)) = SourceString src ->
  trace (snd (start w))
  = trace w ++
    [RequestSession true;
     Log Debug ("Stream command: " ++ videoProcessor (self w) ++ " "
                ++ JS.replace_all "," " "
                     (JS.Array_toString
                        (spawnOptions (JS.split " " src) (flags (self w)))))
         (Some (cameraName (self w)));
     Spawn (next_child w) (videoProcessor (self w))
           (spawnOptions (JS.split " " src) (flags (self w)))].
Proof.
  intros Hs Hr Hsrc.
  destruct (spawn_accepts (videoProcessor (self w))
              (spawnOptions (JS.split " " src) (flags (self w)))) eqn:Hacc.
  - now rewrite (start_granted w c src Hs Hr Hsrc Hacc).
  - now rewrite (start_rejected w c src Hs Hr Hsrc Hacc).
Qed.

Lemma start_granted_array (w : world Ctl) c l :
  streamSession (self w) = None ->
  requestSession (sessions w) = (true, c) ->
  source (streamOptions (self w)) = SourceArray l ->
  start w =
  (JS.Throw (JS.TypeError "this.streamOptions.source.split is not a function"),
   World (self w) c (children w) (next_child w) (timers w)
     (trace w ++ [RequestSession true])).
Proof.
  intros Hs Hr Hsrc. unfold start, bind, this, request, throw.
  now rewrite Hs, Hr, Hsrc.
Qed.

(** [start] assigns at most the handle. *)
Lemma start_self (w : world Ctl) :
  self (snd (start w)) = self w
  \/ exists p, self (snd (start w)) = update_session (Some p) (self w).
Proof.
  destruct (streamSession (self w)) as [p|] eqn:Hs;
    [left; now rewrite (start_running w p Hs)|].
  destruct (requestSession (sessions w)) as [[|] c] eqn:Hr;
    [|left; now rewrite (start_denied w c Hs Hr)].
  destruct (source (streamOptions (self w))) as [src|l] eqn:Hsrc;
    [|left; now rewrite (start_granted_array w c l Hs Hr Hsrc)].
  destruct (spawn_accepts (videoProcessor (self w))
              (spawnOptions (JS.split " " src) (flags (self w)))) eqn:Hacc.
  - right. exists (next_child w).
    now rewrite (start_granted w c src Hs Hr Hsrc Hacc).
  - left. now rewrite (start_rejected w c src Hs Hr Hsrc Hacc).
Qed.

Lemma on_exit_eq (w : world Ctl) code signal :
  on_exit code signal w =
  (JS.Normal tt,
   World (update_session None (self w)) (closeSession (sessions w))
     (children w) (next_child w) (timers w)
     (trace w ++ [exit_log code signal (cameraName (self w)); CloseSession])).
Proof.
  unfold on_exit, exit_log, bind, this, log, emit, assign, close.
  destruct (JS.strict_eq code (JS.Num 1)); cbn -[String.append];
    now rewrite <- app_assoc.
Qed.

Lemma stop_running (w : world Ctl) p :
  streamSession (self w) = Some p ->
  stop w =
  (JS.Normal tt,
   World (self w) (sessions w) (children w) (next_child w) (timers w)
     (trace w ++ [Log Debug "Stopping stream.." (Some (cameraName (self w)));
                  Kill p])).
Proof.
  intros Hs. unfold stop, bind, this, log, emit. rewrite Hs. cbn.
  now rewrite <- app_assoc.
Qed.

Lemma stop_idle (w : world Ctl) :
  streamSession (self w) = None -> stop w = (JS.Normal tt, w).
Proof. intros Hs. unfold stop, bind, this, ret. now rewrite Hs. Qed.

Lemma setStreamSource_throws (w : world Ctl) src :
  setStreamSource src w
  = (JS.Throw (JS.TypeError "source.inludes is not a function"), w).
Proof. reflexivity. Qed.

End Methods.

(** ** The life cycle *)

Section Lifecycle.

Context {Ctl : Type} `{SessionService Ctl}.

Lemma releases_app t1 t2 : releases (t1 ++ t2) = releases t1 + releases t2.
Proof. unfold releases. now rewrite filter_app, length_app. Qed.

Lemma requests_app t1 t2 : requests (t1 ++ t2) = requests t1 + requests t2.
Proof. unfold requests. now rewrite filter_app, length_app. Qed.

Lemma spawns_app t1 t2 : spawns (t1 ++ t2) = spawns t1 + spawns t2.
Proof. unfold spawns. now rewrite filter_app, length_app. Qed.

Lemma grants_app t1 t2 : grants (t1 ++ t2) = grants t1 + grants t2.
Proof. unfold grants. now rewrite filter_app, length_app. Qed.

Lemma rejected_spawns_app t1 t2 :
  rejected_spawns (t1 ++ t2) = rejected_spawns t1 + rejected_spawns t2.
Proof. unfold rejected_spawns. now rewrite filter_app, length_app. Qed.

Lemma replay_app (c : Ctl) t1 t2 :
  replay c (t1 ++ t2) =
  match replay c t1 with
  | Some c' => replay c' t2
  | None => None
  end.
Proof.
  revert c. induction t1 as [|e t1 IH]; intros c; simpl; [reflexivity|].
  destruct e as [| answer | | | |]; auto.
  destruct (Bool.eqb answer (fst (requestSession c))); auto.
Qed.

(** The counts over what one call appends. *)
Ltac count_appended :=
  unfold grants, releases, rejected_spawns, exit_log in *;
  rewrite ?filter_app, ?length_app;
  cbn [filter is_grant is_release is_rejected];
  repeat match goal with
         | H : spawn_accepts _ _ = _ |- _ => rewrite H
         | |- context [JS.strict_eq ?c ?d] => destruct (JS.strict_eq c d)
         end;
  cbn [filter is_grant is_release is_rejected negb List.length];
  lia.

(** The mutators of the option set touch nothing else. *)
Lemma update_options_fold {X} (f : X -> JS.object -> JS.object) l s :
  fold_left (fun s x => update_options (f x) s) l s
  = update_options (fun o => fold_left (fun o x => f x o) l o) s.
Proof.
  revert s. induction l as [|x l IH]; intros s; simpl.
  - now destruct s as [? ? ? [? ?] ?].
  - now rewrite IH.
Qed.

Lemma setStreamOptions_eq options s :
  setStreamOptions options s
  = update_options (JS.assign_all (JS.entries options)) s.
Proof.
  unfold setStreamOptions.
  apply (update_options_fold (fun kv => JS.set (fst kv) (snd kv))).
Qed.

Lemma delStreamOptions_eq options s :
  delStreamOptions options s
  = update_options
      (fun o => fold_left (fun o p => JS.delete (JS.ToString p) o) options o) s.
Proof.
  unfold delStreamOptions.
  apply (update_options_fold (fun p => JS.delete (JS.ToString p))).
Qed.

Lemma configureStreamOptions_eq db s :
  exists f, configureStreamOptions db s = update_options f s.
Proof.
  exists (fun _ => flags (configureStreamOptions db s)).
  unfold configureStreamOptions.
  destruct (find_setting _ db) as [c|].
  - destruct (JS.truthy (cs_resolution c)), (JS.truthy (cs_audio c));
      reflexivity.
  - now destruct s as [? ? ? [? ?] ?].
Qed.

Lemma inv_assign_options (w : world Ctl) f :
  inv w -> inv (snd (assign (update_options f) w)).
Proof. intros (Hsrc & Hch & Hsl). split; [|split]; assumption. Qed.

Lemma inv_init processor cam (c : Ctl) : inv (init processor cam c).
Proof.
  assert (Hshape : source (streamOptions (constructor processor cam))
                   = SourceString (vc_source (camera_videoConfig cam))
                   /\ streamSession (constructor processor cam) = None).
  { unfold constructor.
    set (vc := camera_videoConfig cam).
    destruct (JS.truthy (vc_mapvideo vc)), (JS.truthy (vc_videoFilter vc)),
      (JS.truthy (vc_audio vc)), (JS.truthy (vc_mapaudio vc)); now split. }
  destruct Hshape as [Hsrc Hs].
  unfold inv, init, holds_process; simpl. rewrite Hs.
  split; [eexists; exact Hsrc|split; reflexivity].
Qed.

(** [start] keeps the invariant and releases nothing. *)
Lemma inv_start (w : world Ctl) :
  inv w ->
  inv (snd (start w)) /\ releases (trace (snd (start w))) = releases (trace w).
Proof.
  intros (Hsrc & Hch & Hsl). pose proof Hsrc as [src Hsrc'].
  unfold holds_process in Hsl.
  destruct (streamSession (self w)) as [p|] eqn:Hs.
  - rewrite (start_running w p Hs). simpl.
    split; [|reflexivity]. unfold inv, holds_process. rewrite Hs.
    split; [assumption|split; assumption].
  - destruct (requestSession (sessions w)) as [[|] c] eqn:Hr.
    + destruct (spawn_accepts (videoProcessor (self w))
                  (spawnOptions (JS.split " " src) (flags (self w)))) eqn:Hacc.
      * rewrite (start_granted w c src Hs Hr Hsrc' Hacc). cbn [snd].
        unfold inv, holds_process. cbn [self children trace update_session
                                        streamSession streamOptions source].
        rewrite Hch.
        split; [split; [assumption|split; [reflexivity|]]|]; count_appended.
      * rewrite (start_rejected w c src Hs Hr Hsrc' Hacc). cbn [snd].
        unfold inv, holds_process. cbn [self children trace]. rewrite Hs.
        split; [split; [assumption|split; [assumption|]]|]; count_appended.
    + rewrite (start_denied w c Hs Hr). cbn [snd].
      unfold inv, holds_process. cbn [self children trace]. rewrite Hs.
      split; [split; [assumption|split; [assumption|]]|]; count_appended.
Qed.

Lemma inv_stop (w : world Ctl) :
  inv w ->
  inv (snd (stop w)) /\ releases (trace (snd (stop w))) = releases (trace w).
Proof.
  intros (Hsrc & Hch & Hsl).
  destruct (streamSession (self w)) as [p|] eqn:Hs.
  - rewrite (stop_running w p Hs). cbn [snd].
    unfold inv, holds_process in *. cbn [self children trace]. rewrite Hs in *.
    split; [split; [assumption|split; [assumption|]]|]; count_appended.
  - rewrite (stop_idle w Hs). simpl.
    split; [|reflexivity]. split; [assumption|split; [now rewrite Hs|assumption]].
Qed.

Lemma restart_running (w : world Ctl) p :
  streamSession (self w) = Some p ->
  restart w =
  (JS.Normal tt,
   World (self w) (sessions w) (children w) (next_child w) (S (timers w))
     (trace w ++ [Log Debug "Stopping stream.." (Some (cameraName (self w)));
                  Kill p; SetTimeout 1500])).
Proof.
  intros Hs. unfold restart, bind, this, setTimeout. rewrite Hs.
  rewrite (stop_running w p Hs). cbn. now rewrite <- app_assoc.
Qed.

Lemma restart_idle (w : world Ctl) :
  streamSession (self w) = None -> restart w = start w.
Proof. intros Hs. unfold restart, bind, this. now rewrite Hs. Qed.

Lemma inv_restart (w : world Ctl) :
  inv w ->
  inv (snd (restart w))
  /\ releases (trace (snd (restart w))) = releases (trace w).
Proof.
  intros Hinv.
  destruct (streamSession (self w)) as [p|] eqn:Hs.
  - rewrite (restart_running w p Hs). cbn [snd].
    destruct Hinv as (Hsrc & Hch & Hsl).
    unfold inv, holds_process in *. cbn [self children trace]. rewrite Hs in *.
    split; [split; [assumption|split; [assumption|]]|]; count_appended.
  - rewrite (restart_idle w Hs). now apply inv_start.
Qed.

(** The [exit] of the live child clears the handle and releases once. *)
Lemma inv_exit (w : world Ctl) p code signal :
  inv w ->
  existsb (Nat.eqb p) (children w) = true ->
  let w' := snd (on_exit code signal (remove_child p w)) in
  inv w' /\ releases (trace w') = releases (trace w) + 1
  /\ streamSession (self w') = None /\ streamSession (self w) = Some p.
Proof.
  intros (Hsrc & Hch & Hsl) Hin. rewrite on_exit_eq. cbn [snd].
  unfold holds_process in Hsl.
  destruct (streamSession (self w)) as [q|] eqn:Hs;
    rewrite Hch in Hin; simpl in Hin; [|discriminate].
  rewrite orb_false_r in Hin. apply Nat.eqb_eq in Hin. subst q.
  unfold inv, holds_process.
  cbn [self children trace remove_child update_session streamSession
       streamOptions source sessions next_child timers].
  rewrite Hch. cbn [filter]. rewrite Nat.eqb_refl. cbn [negb].
  split; [split; [assumption|split; [reflexivity|]]|split; [|split; reflexivity]];
    count_appended.
Qed.

Lemma inv_step (w w' : world Ctl) e :
  inv w -> step w e = Some w' ->
  inv w'
  /\ releases (trace w') = releases (trace w) + (if is_exit e then 1 else 0)
  /\ (is_exit e = true -> streamSession (self w') = None).
Proof.
  intros Hinv Hstep.
  destruct e as [db| | | |src|options|options|p code signal|];
    cbn [step] in Hstep; cbn [is_exit]; rewrite ?Nat.add_0_r.
  - injection Hstep as <-.
    destruct (configureStreamOptions_eq db (self w)) as [f Hf].
    unfold assign. rewrite Hf.
    split; [apply (inv_assign_options w f Hinv)|split; [reflexivity|discriminate]].
  - injection Hstep as <-.
    destruct (inv_start w Hinv). split; [|split]; [assumption..|discriminate].
  - injection Hstep as <-.
    destruct (inv_stop w Hinv). split; [|split]; [assumption..|discriminate].
  - injection Hstep as <-.
    destruct (inv_restart w Hinv). split; [|split]; [assumption..|discriminate].
  - rewrite setStreamSource_throws in Hstep. injection Hstep as <-.
    split; [|split]; [assumption|reflexivity|discriminate].
  - injection Hstep as <-. unfold assign. rewrite setStreamOptions_eq.
    split; [apply (inv_assign_options w _ Hinv)|split; [reflexivity|discriminate]].
  - injection Hstep as <-. unfold assign. rewrite delStreamOptions_eq.
    split; [apply (inv_assign_options w _ Hinv)|split; [reflexivity|discriminate]].
  - destruct (existsb (Nat.eqb p) (children w)) eqn:Hin; [|discriminate].
    injection Hstep as <-.
    destruct (inv_exit w p code signal Hinv Hin) as (Hi & Hrel & Hnone & _).
    split; [|split]; [assumption..|intros _; assumption].
  - destruct (timers w) eqn:Ht; [discriminate|].
    injection Hstep as <-.
    assert (Hd : inv (drop_timer w)) by exact Hinv.
    destruct (inv_start _ Hd). split; [|split]; [assumption..|discriminate].
Qed.

Lemma inv_run (w w' : world Ctl) es :
  inv w -> run w es = Some w' -> inv w'.
Proof.
  revert w. induction es as [|e es IH]; simpl; intros w Hinv Hrun.
  - now injection Hrun as <-.
  - destruct (step w e) as [w1|] eqn:Hstep; [|discriminate].
    apply (IH w1); [|assumption].
    now destruct (inv_step w w1 e Hinv Hstep).
Qed.

End Lifecycle.

(** ** Admission and the life cycle of the child *)

(** Once a slot of a one-slot pool is taken by a session that has no
    process, nothing that can happen to the session gives it back. *)
Lemma stuck_step (w w' : world slotPool) (e : event) :
  sessions w = SlotPool 1 1 /\ streamSession (self w) = None
  /\ children w = [] /\ releases (trace w) = 0 ->
  step w e = Some w' ->
  sessions w' = SlotPool 1 1 /\ streamSession (self w') = None
  /\ children w' = [] /\ releases (trace w') = 0.
Proof.
  intros (Hpool & Hs & Hch & Hrel) Hstep.
  assert (Hstart : forall v : world slotPool,
             sessions v = SlotPool 1 1 -> streamSession (self v) = None ->
             children v = [] -> releases (trace v) = 0 ->
             sessions (snd (start v)) = SlotPool 1 1
             /\ streamSession (self (snd (start v))) = None
             /\ children (snd (start v)) = []
             /\ releases (trace (snd (start v))) = 0).
  { intros v Hp Hv Hc Hr.
    rewrite (start_denied v (SlotPool 1 1) Hv) by (now rewrite Hp).
    cbn [snd sessions self children trace].
    repeat split; try assumption.
    rewrite releases_app, Hr. reflexivity. }
  destruct e as [db| | | |src|options|options|p code signal|];
    cbn [step] in Hstep.
  - injection Hstep as <-. cbn [snd assign sessions self children trace].
    destruct (configureStreamOptions_eq db (self w)) as [f ->].
    now repeat split.
  - injection Hstep as <-. now apply Hstart.
  - injection Hstep as <-. rewrite (stop_idle w Hs). now repeat split.
  - injection Hstep as <-. rewrite (restart_idle w Hs). now apply Hstart.
  - rewrite setStreamSource_throws in Hstep. injection Hstep as <-.
    now repeat split.
  - injection Hstep as <-. cbn [snd assign sessions self children trace].
    rewrite setStreamOptions_eq. now repeat split.
  - injection Hstep as <-. cbn [snd assign sessions self children trace].
    rewrite delStreamOptions_eq. now repeat split.
  - rewrite Hch in Hstep. discriminate Hstep.
  - destruct (timers w); [discriminate|]. injection Hstep as <-.
    now apply (Hstart (drop_timer w)).
Qed.

Lemma stuck_run (w w' : world slotPool) (es : list event) :
  sessions w = SlotPool 1 1 /\ streamSession (self w) = None
  /\ children w = [] /\ releases (trace w) = 0 ->
  run w es = Some w' ->
  sessions w' = SlotPool 1 1 /\ streamSession (self w') = None
  /\ children w' = [] /\ releases (trace w') = 0.
Proof.
  revert w. induction es as [|e es IH]; simpl; intros w Hw Hrun.
  - now injection Hrun as <-.
  - destruct (step w e) as [w1|] eqn:Hstep; [|discriminate].
    apply (IH w1); [|assumption]. now apply (stuck_step w w1 e).
Qed.

(** C1, on a session whose processor is the empty string, over a pool with
    one free slot. [start()] is granted the slot, logs the command, and
    [spawn] raises: the exception reaches the caller, the session has no
    handle and no child, and the slot is taken. No [exit] event can follow,
    so whatever happens afterwards [closeSession] is never called, the
    pool stays full and the session never gets a process. *)
Theorem granted_slot_leaks_when_spawn_raises :
  fst (start Scenario.no_processor)
  = JS.Throw (JS.TypeError "The argument 'file' cannot be empty. Received ''")
  /\ grants (trace (snd (start Scenario.no_processor))) = 1
  /\ sessions (snd (start Scenario.no_processor)) = SlotPool 1 1
  /\ streamSession (self (snd (start Scenario.no_processor))) = None
  /\ children (snd (start Scenario.no_processor)) = []
  /\ (forall p code signal,
        step (snd (start Scenario.no_processor)) (Exit p code signal) = None)
  /\ (forall es w,
        run (snd (start Scenario.no_processor)) es = Some w ->
        sessions w = SlotPool 1 1 /\ streamSession (self w) = None
        /\ children w = [] /\ releases (trace w) = 0).
Proof.
  repeat (split; [reflexivity|]).
  intros es w Hrun.
  apply (stuck_run (snd (start Scenario.no_processor)) w es); [|exact Hrun].
  now repeat split.
Qed.

(** C2. When an idle session calls [start()] and the controller denies the
    slot, the call returns normally, the fields of the session, the set of
    children and the timers are as before, and the only effects are the
    request and one line logged at error severity; nothing is spawned. *)
Theorem start_denied_stays_idle {Ctl : Type} `{SessionService Ctl}
    (w : world Ctl) :
  streamSession (self w) = None ->
  fst (requestSession (sessions w)) = false ->
  fst (start w) = JS.Normal tt
  /\ self (snd (start w)) = self w
  /\ children (snd (start w)) = children w
  /\ next_child (snd (start w)) = next_child w
  /\ timers (snd (start w)) = timers w
  /\ trace (snd (start w))
     = trace w ++
       [RequestSession false;
        Log Error "Not allowed to start stream. Session limit exceeded!"
            (Some (cameraName (self w)))]
  /\ spawns (trace (snd (start w))) = spawns (trace w).
Proof.
  intros Hs Hden.
  destruct (requestSession (sessions w)) as [g c] eqn:Hr. simpl in Hden. subst g.
  rewrite (start_denied w c Hs Hr). simpl.
  repeat split. rewrite spawns_app. unfold spawns at 2. simpl. lia.
Qed.

Lemma start_denied_stays_idle_witness :
  fst (start Scenario.fresh_full) = JS.Normal tt
  /\ self (snd (start Scenario.fresh_full)) = self Scenario.fresh_full
  /\ children (snd (start Scenario.fresh_full)) = children Scenario.fresh_full
  /\ next_child (snd (start Scenario.fresh_full))
     = next_child Scenario.fresh_full
  /\ timers (snd (start Scenario.fresh_full)) = timers Scenario.fresh_full
  /\ trace (snd (start Scenario.fresh_full))
     = trace Scenario.fresh_full ++
       [RequestSession false;
        Log Error "Not allowed to start stream. Session limit exceeded!"
            (Some (cameraName (self Scenario.fresh_full)))]
  /\ spawns (trace (snd (start Scenario.fresh_full)))
     = spawns (trace Scenario.fresh_full).
Proof.
  apply (start_denied_stays_idle Scenario.fresh_full); reflexivity.
Defined.

(** C3. When the session already holds a process, [start()] does nothing:
    it returns normally and leaves the world as it was, so no process is
    spawned, the controller is not asked again, and the handle is the one
    that was there. *)
Theorem start_idempotent_while_running {Ctl : Type} `{SessionService Ctl}
    (w : world Ctl) (p : pid) :
  streamSession (self w) = Some p ->
  start w = (JS.Normal tt, w)
  /\ spawns (trace (snd (start w))) = spawns (trace w)
  /\ requests (trace (snd (start w))) = requests (trace w)
  /\ streamSession (self (snd (start w))) = Some p.
Proof.
  intros Hs. rewrite (start_running w p Hs). simpl. now repeat split.
Qed.

Lemma start_idempotent_while_running_witness :
  streamSession (self Scenario.fresh) = None
  /\ spawns (trace Scenario.running) = 1
  /\ start Scenario.running = (JS.Normal tt, Scenario.running)
  /\ spawns (trace (snd (start Scenario.running))) = 1
  /\ requests (trace (snd (start Scenario.running))) = 1
  /\ streamSession (self (snd (start Scenario.running))) = Some 0.
Proof.
  split; [reflexivity|]. split; [reflexivity|].
  apply (start_idempotent_while_running Scenario.running 0). reflexivity.
Defined.

Lemma start_twice_spawns_once {Ctl : Type} `{SessionService Ctl}
    (w : world Ctl) (src : string) :
  streamSession (self w) = None ->
  fst (requestSession (sessions w)) = true ->
  source (streamOptions (self w)) = SourceString src ->
  spawn_accepts (videoProcessor (self w))
    (spawnOptions (JS.split " " src) (flags (self w))) = true ->
  snd (start (snd (start w))) = snd (start w)
  /\ spawns (trace (snd (start (snd (start w))))) = spawns (trace w) + 1
  /\ requests (trace (snd (start (snd (start w))))) = requests (trace w) + 1.
Proof.
  intros Hs Hg Hsrc Hacc.
  destruct (requestSession (sessions w)) as [g c] eqn:Hr. simpl in Hg. subst g.
  rewrite (start_granted w c src Hs Hr Hsrc Hacc). cbn [snd].
  rewrite (start_running _ (next_child w)) by reflexivity. cbn [snd trace].
  rewrite spawns_app, requests_app. now repeat split.
Qed.

(** C7, as the code has it. The [exit] handler always clears the handle and
    calls [closeSession]. It logs at error severity, with the signal in the
    message, exactly when the exit code is 1; for every other outcome (code
    0, any other code, or [null] with a signal) it logs the expected exit at
    debug severity. *)
Theorem exit_classification {Ctl : Type} `{SessionService Ctl}
    (w : world Ctl) (code signal : JS.value) :
  fst (on_exit code signal w) = JS.Normal tt
  /\ streamSession (self (snd (on_exit code signal w))) = None
  /\ sessions (snd (on_exit code signal w)) = closeSession (sessions w)
  /\ (code = JS.Num 1 ->
      trace (snd (on_exit code signal w))
      = trace w ++
        [Log Error ("Stream exited with error! (" ++ JS.ToString signal ++ ")")
             (Some (cameraName (self w)));
         CloseSession])
  /\ (code <> JS.Num 1 ->
      trace (snd (on_exit code signal w))
      = trace w ++
        [Log Debug "Stream exit (expected)" (Some (cameraName (self w)));
         CloseSession]).
Proof.
  rewrite on_exit_eq. cbn [fst snd self sessions trace]. unfold exit_log.
  repeat split.
  - intros ->. reflexivity.
  - intros Hne.
    destruct (JS.strict_eq code (JS.Num 1)) eqn:E; [|reflexivity].
    exfalso. apply Hne. destruct code; simpl in E; try discriminate.
    apply Z.eqb_eq in E. now subst.
Qed.

Lemma exit_classification_witness :
  trace (snd (on_exit (JS.Num 1) JS.Null Scenario.running))
  = trace Scenario.running ++
    [Log Error "Stream exited with error! (null)" (Some "Front Door");
     CloseSession]
  /\ trace (snd (on_exit JS.Null (JS.Str "SIGTERM") Scenario.running))
     = trace Scenario.running ++
       [Log Debug "Stream exit (expected)" (Some "Front Door"); CloseSession].
Proof.
  split.
  - apply (exit_classification Scenario.running (JS.Num 1) JS.Null).
    reflexivity.
  - apply (exit_classification Scenario.running JS.Null (JS.Str "SIGTERM")).
    discriminate.
Defined.

(** C7, as the spec states it, fails: exit code 2 is a failure code, and the
    handler logs the exit as expected, at debug severity. *)
Lemma exit_code_2_logged_as_expected :
  failure_code (JS.Num 2) = true
  /\ trace (snd (on_exit (JS.Num 2) JS.Null Scenario.running))
     = trace Scenario.running ++
       [Log Debug "Stream exit (expected)" (Some "Front Door"); CloseSession].
Proof. split; reflexivity. Qed.

(** C8. [setStreamSource] calls [source.inludes], which no string has: for
    every string the call raises a [TypeError] before it reaches either
    branch. The source is unchanged, and no warning is logged. *)
Theorem setStreamSource_always_throws {Ctl : Type} `{SessionService Ctl}
    (w : world Ctl) (src : string) :
  setStreamSource src w
  = (JS.Throw (JS.TypeError "source.inludes is not a function"), w).
Proof. apply setStreamSource_throws. Qed.

Example setStreamSource_without_marker :
  JS.includes "rtsp://192.168.0.10/live" "-i" = false
  /\ setStreamSource "rtsp://192.168.0.10/live" Scenario.fresh
     = (JS.Throw (JS.TypeError "source.inludes is not a function"),
        Scenario.fresh).
Proof. split; reflexivity. Qed.

(** ** Exclusion of [-an] and the audio bundle *)

Section Exclusion.

Context {Ctl : Type} `{SessionService Ctl}.

Import JS JSFacts OptionLayer.

Lemma exclusive_no_marker o : lookup o "-an" = None -> exclusive o.
Proof.
  intros Hl Hhas. apply has_lookup in Hhas. contradiction.
Qed.

Lemma exclusive_no_bundle o :
  (forall k, In k audio_flags -> lookup o k = None) -> exclusive o.
Proof. intros Hb _ k Hk. apply has_false. now apply Hb. Qed.

Lemma constructor_no_marker processor cam :
  lookup (flags (constructor processor cam)) "-an" = None.
Proof.
  unfold constructor. set (vc := camera_videoConfig cam).
  destruct (truthy (vc_mapvideo vc)), (truthy (vc_videoFilter vc)),
    (truthy (vc_audio vc)), (truthy (vc_mapaudio vc));
    rewrite ?flags_update_options; repeat lookup_step;
    try reflexivity;
    rewrite lookup_spread; simpl; apply lookup_delete_same.
Qed.

Lemma exclusive_configure db s :
  exclusive (flags s) -> exclusive (flags (configureStreamOptions db s)).
Proof.
  intros Hex.
  destruct (find_setting (cameraName s) db) as [c|] eqn:Hf.
  - destruct (truthy (cs_audio c)) eqn:Ha.
    + rewrite (configureStreamOptions_on db s c Hf Ha).
      apply exclusive_no_marker, enabled_audio_on.
    + rewrite (configureStreamOptions_off db s c Hf Ha).
      apply exclusive_no_bundle, disabled_lookups.
  - now rewrite configureStreamOptions_absent.
Qed.

Lemma has_delete k' o k : has (delete k' o) k = true -> has o k = true.
Proof.
  unfold has. destruct (string_dec k' k) as [->|Hne].
  - now rewrite lookup_delete_same.
  - now rewrite lookup_delete_other.
Qed.

Lemma has_delete_all l o k :
  has (fold_left (fun o p => delete (ToString p) o) l o) k = true ->
  has o k = true.
Proof.
  revert o. induction l as [|p l IH]; simpl; intros o Hh; [assumption|].
  apply IH in Hh. now apply has_delete in Hh.
Qed.

Lemma exclusive_del l s :
  exclusive (flags s) -> exclusive (flags (delStreamOptions l s)).
Proof.
  intros Hex. rewrite delStreamOptions_eq, flags_update_options.
  intros Han k Hk. apply has_delete_all in Han.
  specialize (Hex Han k Hk).
  destruct (has (fold_left _ l (flags s)) k) eqn:E; [|reflexivity].
  apply has_delete_all in E. congruence.
Qed.

Lemma entries_keys o : map fst (entries o) = keys o.
Proof.
  unfold entries. rewrite map_map. simpl. apply map_id.
Qed.

Lemma lookup_set_options options s k :
  has options k = false ->
  lookup (flags (setStreamOptions options s)) k = lookup (flags s) k.
Proof.
  intros Hno. rewrite setStreamOptions_eq, flags_update_options.
  apply lookup_assign_all_notin. rewrite entries_keys, In_keys.
  apply lookup_None_iff. now apply has_false.
Qed.

Lemma exclusive_set options s :
  forallb (fun k => negb (has options k)) ("-an" :: audio_flags) = true ->
  exclusive (flags s) -> exclusive (flags (setStreamOptions options s)).
Proof.
  intros Hsafe Hex.
  assert (Hk : forall k, In k ("-an" :: audio_flags) ->
                         has (flags (setStreamOptions options s)) k
                         = has (flags s) k).
  { intros k Hin. unfold has. rewrite lookup_set_options; [reflexivity|].
    rewrite forallb_forall in Hsafe. specialize (Hsafe k Hin).
    now destruct (has options k). }
  intros Han k Hin.
  rewrite Hk in Han by now left.
  rewrite Hk by now right. now apply Hex.
Qed.

(** The methods outside the option layer leave the option set alone. *)
Lemma start_flags (w : world Ctl) : flags (self (snd (start w))) = flags (self w).
Proof.
  destruct (start_self w) as [->|[p ->]]; reflexivity.
Qed.

Lemma stop_flags (w : world Ctl) : flags (self (snd (stop w))) = flags (self w).
Proof.
  unfold stop, bind, this. destruct (streamSession (self w)); reflexivity.
Qed.

Lemma restart_flags (w : world Ctl) :
  flags (self (snd (restart w))) = flags (self w).
Proof.
  unfold restart, bind, this.
  destruct (streamSession (self w)) as [p|] eqn:Hs.
  - now rewrite (stop_running w p Hs).
  - apply start_flags.
Qed.

Lemma exclusive_step (w w' : world Ctl) e :
  keeps_audio_keys e = true -> step w e = Some w' ->
  exclusive (flags (self w)) -> exclusive (flags (self w')).
Proof.
  intros Hsafe Hstep Hex.
  destruct e as [db| | | |src|options|options|p code signal|];
    cbn [step] in Hstep.
  - injection Hstep as <-. now apply exclusive_configure.
  - injection Hstep as <-. now rewrite start_flags.
  - injection Hstep as <-. now rewrite stop_flags.
  - injection Hstep as <-. now rewrite restart_flags.
  - rewrite setStreamSource_throws in Hstep. now injection Hstep as <-.
  - injection Hstep as <-. now apply exclusive_set.
  - injection Hstep as <-. now apply exclusive_del.
  - destruct (existsb (Nat.eqb p) (children w)); [|discriminate].
    injection Hstep as <-. now rewrite on_exit_eq.
  - destruct (timers w); [discriminate|].
    injection Hstep as <-. now rewrite start_flags.
Qed.

Lemma exclusive_run (w w' : world Ctl) es :
  forallb keeps_audio_keys es = true -> run w es = Some w' ->
  exclusive (flags (self w)) -> exclusive (flags (self w')).
Proof.
  revert w. induction es as [|e es IH]; simpl; intros w Hsafe Hrun Hex.
  - now injection Hrun as <-.
  - apply andb_prop in Hsafe as [He Hes].
    destruct (step w e) as [w1|] eqn:Hstep; [|discriminate].
    apply (IH w1 Hes Hrun). now apply (exclusive_step w w1 e).
Qed.

End Exclusion.

(** C6, as the code has it. After construction and any sequence of events in
    which [setStreamOptions] is never given [-an] or an audio-bundle flag
    ([configureStreamOptions], [delStreamOptions] and the life-cycle events
    are unrestricted), the option set never holds [-an] together with an
    audio-bundle flag. *)
Theorem audio_markers_exclusive {Ctl : Type} `{SessionService Ctl}
    (processor : string) (cam : camera) (c0 : Ctl)
    (es : list event) (w : world Ctl) :
  forallb keeps_audio_keys es = true ->
  run (init processor cam c0) es = Some w ->
  exclusive (flags (self w)).
Proof.
  intros Hsafe Hrun.
  apply (exclusive_run (init processor cam c0) w es Hsafe Hrun).
  apply exclusive_no_marker, constructor_no_marker.
Qed.

Lemma audio_markers_exclusive_witness :
  exclusive
    (flags (configureStreamOptions Examples.db_off
              (delStreamOptions [JS.Str "-ar"]
                 (setStreamOptions [("-r", JS.Num 10)]
                    (constructor "ffmpeg" Examples.audio_camera))))).
Proof.
  apply (audio_markers_exclusive "ffmpeg" Examples.audio_camera (SlotPool 1 0)
           [CallSetStreamOptions [("-r", JS.Num 10)];
            CallDelStreamOptions [JS.Str "-ar"];
            CallConfigureStreamOptions Examples.db_off]
           (World
              (configureStreamOptions Examples.db_off
                 (delStreamOptions [JS.Str "-ar"]
                    (setStreamOptions [("-r", JS.Num 10)]
                       (constructor "ffmpeg" Examples.audio_camera))))
              (SlotPool 1 0) [] 0 0
              [Log Debug "Initializing camera stream" (Some "Front Door")]));
    reflexivity.
Defined.

(** C6, as the spec states it, fails: on a camera constructed with audio,
    [setStreamOptions({'-an': ''})] leaves [-an] next to [-codec:a]. *)
Lemma setStreamOptions_breaks_exclusion :
  let o := flags (setStreamOptions [("-an", JS.Str "")]
                    (constructor "ffmpeg" Examples.audio_camera)) in
  JS.has o "-an" = true /\ JS.has o "-codec:a" = true /\ ~ exclusive o.
Proof.
  cbv zeta. split; [reflexivity|split; [reflexivity|]].
  intros Hex. specialize (Hex eq_refl "-codec:a" (or_introl eq_refl)).
  discriminate Hex.
Qed.

(** ** The argument list *)

Section Arguments_.

Import JS JSFacts.

Lemma fold_push (o : object) ks acc :
  fold_left (fun acc key => acc ++ [Str key; get o key]) ks acc
  = acc ++ flat_map (fun k => [Str k; get o k]) ks.
Proof.
  revert acc. induction ks as [|k ks IH]; intros acc; simpl.
  - now rewrite app_nil_r.
  - rewrite IH, <- app_assoc. reflexivity.
Qed.

(** The loop of [start] emits each entry as name, then value. *)
Lemma additionalFlags_entries o :
  additionalFlags o = flat_map (fun kv => [Str (fst kv); snd kv]) (entries o).
Proof.
  unfold additionalFlags, entries. rewrite fold_push. simpl.
  induction (keys o) as [|k ks IH]; simpl; [reflexivity|now rewrite IH].
Qed.

Lemma filter_Str tokens :
  filter (fun key => negb (strict_eq key (Str ""))) (map Str tokens)
  = map Str (filter (fun t => negb (t =? "")) tokens).
Proof.
  induction tokens as [|t ts IH]; simpl; [reflexivity|].
  destruct (t =? ""); simpl; now rewrite IH.
Qed.

Lemma spawnOptions_eq tokens o :
  spawnOptions tokens o
  = map Str (filter (fun t => negb (t =? "")) tokens)
    ++ [Str "-f"; Str "mpegts"; Str "-codec:v"; Str "mpeg1video"]
    ++ filter (fun t => negb (strict_eq t (Str "")))
         (flat_map (fun kv => [Str (fst kv); snd kv]) (entries o))
    ++ [Str "-q"; Str "1"; Str "-hide_banner";
        Str "-max_muxing_queue_size"; Str "1024"; Str "-"].
Proof.
  unfold spawnOptions.
  rewrite !filter_app, filter_Str, additionalFlags_entries. reflexivity.
Qed.

Lemma strict_eq_empty t : strict_eq t (Str "") = false -> t <> Str "".
Proof. intros E ->. discriminate E. Qed.

Lemma spawnOptions_no_empty tokens o :
  Forall (fun t => t <> Str "") (spawnOptions tokens o).
Proof.
  apply Forall_forall. intros t Hin. unfold spawnOptions in Hin.
  apply filter_In in Hin as [_ Hne]. apply strict_eq_empty.
  now destruct (strict_eq t (Str "")).
Qed.

Lemma lookup_In o k v : wf o -> In (k, v) o -> lookup o k = Some v.
Proof.
  unfold wf. induction o as [|[k0 v0] o IH]; simpl; intros Hwf Hin; [easy|].
  inversion Hwf as [|? ? Hnin Hnd]; subst.
  destruct Hin as [[= -> ->]|Hin].
  - now rewrite String.eqb_refl.
  - destruct (k0 =? k) eqn:E; [|now apply IH].
    apply String.eqb_eq in E. subst k0. exfalso. apply Hnin.
    apply in_map_iff. now exists (k, v).
Qed.

(** When no key is an array index, the entries come in creation order. *)
Lemma entries_insertion_order o :
  wf o ->
  forallb (fun k => negb (is_index k)) (map fst o) = true ->
  entries o = o.
Proof.
  intros Hwf Hall. unfold entries. rewrite (keys_no_index o Hall), map_map.
  rewrite <- (map_id o) at 2. apply map_ext_in.
  intros [k v] Hin. simpl. unfold get. now rewrite (lookup_In o k v Hwf Hin).
Qed.

(** [split] cuts at every separator: no field contains one, and joining the
    fields with the separator gives the string back. *)
Lemma split_nonempty sep s : split sep s <> [].
Proof.
  destruct s as [|c s]; simpl; [discriminate|].
  destruct (Ascii.eqb c sep); [discriminate|].
  destruct (split sep s); discriminate.
Qed.

Lemma join_split sep s : join sep (split sep s) = s.
Proof.
  induction s as [|c s IH]; [reflexivity|]. simpl.
  destruct (Ascii.eqb c sep) eqn:E.
  - apply Ascii.eqb_eq in E. subst c.
    pose proof (split_nonempty sep s) as Hne.
    cbn [join]. destruct (split sep s) as [|f fs]; [contradiction|].
    now rewrite IH.
  - pose proof (split_nonempty sep s) as Hne.
    destruct (split sep s) as [|f fs]; [contradiction|].
    destruct fs as [|g fs]; simpl in *; now rewrite <- IH.
Qed.

Lemma split_fields_clean sep s :
  Forall (fun f => contains sep f = false) (split sep s).
Proof.
  induction s as [|c s IH]; simpl; [now repeat constructor|].
  destruct (Ascii.eqb c sep) eqn:E.
  - now constructor.
  - destruct (split sep s) as [|f fs];
      [constructor; [simpl; now rewrite E|constructor]|].
    inversion IH; subst. constructor; [|assumption]. simpl. now rewrite E.
Qed.

End Arguments_.

(** C4, as the code has it. When [start()] spawns, the argument list is a
    function of the stream options alone: the source split at every single
    space (and at no other whitespace), then [-f mpegts -codec:v
    mpeg1video], then the entries of the option set as alternating name and
    value in [Object.keys] order, then [-q 1 -hide_banner
    -max_muxing_queue_size 1024 -], all without the tokens equal to the
    empty string. No token of the list is the empty string. [Object.keys]
    order is insertion order when no key is an array index. *)
Theorem start_argument_list {Ctl : Type} `{SessionService Ctl}
    (w : world Ctl) (src : string) :
  streamSession (self w) = None ->
  fst (requestSession (sessions w)) = true ->
  source (streamOptions (self w)) = SourceString src ->
  let args :=
    map JS.Str (filter (fun t => negb (t =? "")) (JS.split " " src))
    ++ [JS.Str "-f"; JS.Str "mpegts"; JS.Str "-codec:v"; JS.Str "mpeg1video"]
    ++ filter (fun t => negb (JS.strict_eq t (JS.Str "")))
         (flat_map (fun kv => [JS.Str (fst kv); snd kv])
                   (JS.entries (flags (self w))))
    ++ [JS.Str "-q"; JS.Str "1"; JS.Str "-hide_banner";
        JS.Str "-max_muxing_queue_size"; JS.Str "1024"; JS.Str "-"] in
  (exists line,
      trace (snd (start w))
      = trace w ++ [RequestSession true; line;
                    Spawn (next_child w) (videoProcessor (self w)) args])
  /\ Forall (fun t => t <> JS.Str "") args
  /\ (JS.wf (flags (self w)) ->
      forallb (fun k => negb (JS.is_index k)) (map fst (flags (self w))) = true ->
      JS.entries (flags (self w)) = flags (self w)).
Proof.
  intros Hs Hg Hsrc args.
  destruct (requestSession (sessions w)) as [g c] eqn:Hr. simpl in Hg. subst g.
  assert (Hargs : spawnOptions (JS.split " " src) (flags (self w)) = args)
    by apply spawnOptions_eq.
  split; [|split].
  - rewrite (start_granted_trace w c src Hs Hr Hsrc), Hargs.
    eexists. reflexivity.
  - rewrite <- Hargs. apply spawnOptions_no_empty.
  - apply entries_insertion_order.
Qed.

Lemma start_argument_list_witness :
  exists line,
    trace (snd (start Scenario.fresh))
    = trace Scenario.fresh ++
      [RequestSession true; line;
       Spawn 0 "ffmpeg"
         [JS.Str "-i"; JS.Str "rtsp://192.168.0.10/live";
          JS.Str "-f"; JS.Str "mpegts"; JS.Str "-codec:v"; JS.Str "mpeg1video";
          JS.Str "-s"; JS.Str "1280x720"; JS.Str "-b:v"; JS.Num 300;
          JS.Str "-r"; JS.Num 15; JS.Str "-bf"; JS.Num 0;
          JS.Str "-preset"; JS.Str "ultrafast"; JS.Str "-threads"; JS.Str "1";
          JS.Str "-loglevel"; JS.Str "error";
          JS.Str "-q"; JS.Str "1"; JS.Str "-hide_banner";
          JS.Str "-max_muxing_queue_size"; JS.Str "1024"; JS.Str "-"]].
Proof.
  exact (proj1 (start_argument_list Scenario.fresh "-i rtsp://192.168.0.10/live"
                  eq_refl eq_refl eq_refl)).
Defined.

(** C4, as the spec states it, fails twice. A tab in the source is
    whitespace, and [start] does not cut there; and a key that is an array
    index is emitted before the keys inserted earlier. *)
Lemma argument_list_not_as_specified :
  (spawned_args (trace Scenario.tab_started)
   = [[JS.Str Scenario.tab_source;
       JS.Str "-f"; JS.Str "mpegts"; JS.Str "-codec:v"; JS.Str "mpeg1video";
       JS.Str "-s"; JS.Str "1280x720"; JS.Str "-b:v"; JS.Num 300;
       JS.Str "-r"; JS.Num 15; JS.Str "-bf"; JS.Num 0;
       JS.Str "-preset"; JS.Str "ultrafast"; JS.Str "-threads"; JS.Str "1";
       JS.Str "-loglevel"; JS.Str "error";
       JS.Str "-q"; JS.Str "1"; JS.Str "-hide_banner";
       JS.Str "-max_muxing_queue_size"; JS.Str "1024"; JS.Str "-"]]
   /\ spec_argument_list Scenario.tab_source
        (flags (self Scenario.tab_started))
      = [JS.Str "-i"; JS.Str "rtsp://192.168.0.10/live";
         JS.Str "-f"; JS.Str "mpegts"; JS.Str "-codec:v"; JS.Str "mpeg1video";
         JS.Str "-s"; JS.Str "1280x720"; JS.Str "-b:v"; JS.Num 300;
         JS.Str "-r"; JS.Num 15; JS.Str "-bf"; JS.Num 0;
         JS.Str "-preset"; JS.Str "ultrafast"; JS.Str "-threads"; JS.Str "1";
         JS.Str "-loglevel"; JS.Str "error";
         JS.Str "-q"; JS.Str "1"; JS.Str "-hide_banner";
         JS.Str "-max_muxing_queue_size"; JS.Str "1024"; JS.Str "-"])
  /\ (map fst (flags (self Scenario.indexed_started))
      = ["-s"; "-b:v"; "-r"; "-bf"; "-preset"; "-threads"; "-loglevel"; "0"]
      /\ spawned_args (trace Scenario.indexed_started)
         = [[JS.Str "-i"; JS.Str "rtsp://192.168.0.10/live";
             JS.Str "-f"; JS.Str "mpegts";
             JS.Str "-codec:v"; JS.Str "mpeg1video";
             JS.Str "0"; JS.Str "x";
             JS.Str "-s"; JS.Str "1280x720"; JS.Str "-b:v"; JS.Num 300;
             JS.Str "-r"; JS.Num 15; JS.Str "-bf"; JS.Num 0;
             JS.Str "-preset"; JS.Str "ultrafast";
             JS.Str "-threads"; JS.Str "1";
             JS.Str "-loglevel"; JS.Str "error";
             JS.Str "-q"; JS.Str "1"; JS.Str "-hide_banner";
             JS.Str "-max_muxing_queue_size"; JS.Str "1024"; JS.Str "-"]]
      /\ spawned_args (trace Scenario.indexed_started)
         <> [spec_argument_list "-i rtsp://192.168.0.10/live"
               (flags (self Scenario.indexed_started))]).
Proof.
  split; [split; reflexivity|].
  split; [reflexivity|split; [reflexivity|]].
  intros Heq. vm_compute in Heq. discriminate Heq.
Qed.

(** ** More on objects: fresh keys, repeated assignment, key order *)

Module ObjectOrder.
Import JS JSFacts.

Lemma set_fresh k v o : lookup o k = None -> set k v o = o ++ [(k, v)].
Proof.
  induction o as [|[k0 v0] o IH]; simpl; [reflexivity|].
  destruct (k0 =? k); [discriminate|]. intros Hl. now rewrite IH.
Qed.

Lemma set_same k v o : lookup o k = Some v -> set k v o = o.
Proof.
  induction o as [|[k0 v0] o IH]; simpl; [discriminate|].
  destruct (k0 =? k) eqn:E.
  - apply String.eqb_eq in E. subst. now intros [= ->].
  - intros Hl. now rewrite IH.
Qed.

Lemma delete_absent k o : lookup o k = None -> delete k o = o.
Proof.
  unfold delete. induction o as [|[k0 v0] o IH]; simpl; [reflexivity|].
  destruct (k0 =? k); [discriminate|]. simpl. intros Hl. now rewrite IH.
Qed.

Lemma lookup_app o1 o2 k :
  lookup (o1 ++ o2) k =
  match lookup o1 k with Some v => Some v | None => lookup o2 k end.
Proof.
  induction o1 as [|[k0 v0] o1 IH]; simpl; [reflexivity|].
  now destruct (k0 =? k).
Qed.

Lemma keys_set k v o :
  map fst (set k v o) = map fst o ++ (if has o k then [] else [k]).
Proof.
  unfold has. induction o as [|[k0 v0] o IH]; simpl; [reflexivity|].
  destruct (k0 =? k) eqn:E; simpl.
  - apply String.eqb_eq in E. subst. now rewrite app_nil_r.
  - now rewrite IH.
Qed.

(** Assigning keys that are all new appends them in order. *)
Lemma assign_all_fresh l o :
  NoDup (map fst l) ->
  (forall k, In k (map fst l) -> lookup o k = None) ->
  assign_all l o = o ++ l.
Proof.
  revert o. induction l as [|[k v] l IH]; simpl; intros o Hnd Hfresh.
  - now rewrite app_nil_r.
  - inversion Hnd as [|? ? Hnin Hnd']; subst.
    unfold assign_all in *. simpl.
    rewrite (set_fresh k v o) by (apply Hfresh; now left).
    rewrite IH; [now rewrite <- app_assoc|assumption|].
    intros k' Hin. rewrite lookup_app, (Hfresh k') by now right.
    simpl. destruct (k =? k') eqn:E; [|reflexivity].
    apply String.eqb_eq in E. subst. contradiction.
Qed.

(** Assigning what is already there changes nothing. *)
Lemma assign_all_same l o :
  (forall k v, In (k, v) l -> lookup o k = Some v) -> assign_all l o = o.
Proof.
  induction l as [|[k v] l IH]; simpl; intros Hsame; [reflexivity|].
  unfold assign_all in *. simpl.
  rewrite (set_same k v o) by (apply Hsame; now left).
  apply IH. intros k' v' Hin. apply Hsame. now right.
Qed.

(** Repeated [delete] is one filter. *)
Lemma delete_all ks o :
  fold_left (fun o k => delete k o) ks o
  = filter (fun kv => negb (existsb (String.eqb (fst kv)) ks)) o.
Proof.
  revert o. induction ks as [|k ks IH]; intros o; simpl.
  - induction o as [|kv o IHo]; simpl; [reflexivity|now rewrite <- IHo].
  - rewrite IH. unfold delete.
    induction o as [|kv o IHo]; simpl; [reflexivity|].
    destruct (fst kv =? k); simpl; rewrite IHo; reflexivity.
Qed.

(** *** [Object.keys] depends on the keys alone and is stable *)

Lemma index_keys_ext o1 o2 :
  map fst o1 = map fst o2 -> index_keys o1 = index_keys o2.
Proof.
  revert o2. induction o1 as [|[k v] o1 IH]; intros [|[k' v'] o2]; simpl;
    try discriminate; [reflexivity|].
  intros [= -> Hrest]. now rewrite (IH o2 Hrest).
Qed.

Lemma keys_ext o1 o2 : map fst o1 = map fst o2 -> keys o1 = keys o2.
Proof.
  intros Heq. unfold keys, string_keys.
  now rewrite (index_keys_ext o1 o2 Heq), Heq.
Qed.

Lemma insert_index_sound n k l :
  array_index k = Some n ->
  Forall (fun p => array_index (snd p) = Some (fst p)) l ->
  Forall (fun p => array_index (snd p) = Some (fst p)) (insert_index n k l).
Proof.
  intros Hk. induction 1 as [|[m k'] l Hp Hl IH]; simpl.
  - now repeat constructor.
  - destruct (n <=? m)%N; repeat constructor; assumption.
Qed.

Lemma index_keys_sound o :
  Forall (fun p => array_index (snd p) = Some (fst p)) (index_keys o).
Proof.
  induction o as [|[k v] o IH]; simpl; [constructor|].
  destruct (array_index k) eqn:E; [now apply insert_index_sound|assumption].
Qed.

Lemma insert_index_sorted n k l :
  Sorted index_le l -> Sorted index_le (insert_index n k l).
Proof.
  induction l as [|[m k'] l IH]; simpl; intros Hs.
  - repeat constructor.
  - destruct (n <=? m)%N eqn:E.
    + constructor; [assumption|]. constructor. unfold index_le. simpl.
      now apply N.leb_le.
    + apply Sorted_inv in Hs as [Hs Hhd].
      constructor; [now apply IH|].
      apply N.leb_gt in E.
      destruct l as [|[m' k''] l]; simpl.
      * constructor. unfold index_le. simpl. lia.
      * destruct (n <=? m')%N; constructor; unfold index_le; simpl;
          [lia|]. inversion Hhd; subst. assumption.
Qed.

Lemma index_keys_sorted o : Sorted index_le (index_keys o).
Proof.
  induction o as [|[k v] o IH]; simpl; [constructor|].
  destruct (array_index k); [now apply insert_index_sorted|assumption].
Qed.

Lemma insert_index_head n k l :
  HdRel index_le (n, k) l -> insert_index n k l = (n, k) :: l.
Proof.
  destruct l as [|[m k'] l]; simpl; [reflexivity|].
  intros Hhd. inversion Hhd as [|? ? Hle]; subst. unfold index_le in Hle.
  simpl in Hle. apply N.leb_le in Hle. now rewrite Hle.
Qed.

(** An object whose keys are listed as [Object.keys] lists them. *)
Lemma index_keys_listed (P : list (N * string)) (rest : list string) o :
  Sorted index_le P ->
  Forall (fun p => array_index (snd p) = Some (fst p)) P ->
  forallb (fun k => negb (is_index k)) rest = true ->
  map fst o = map snd P ++ rest ->
  index_keys o = P.
Proof.
  revert o. induction P as [|[n k] P IH]; simpl; intros o Hs Hsound Hrest Hkeys.
  - apply index_keys_none. simpl in Hkeys. rewrite Hkeys. exact Hrest.
  - destruct o as [|[k0 v0] o]; simpl in Hkeys; [discriminate|].
    injection Hkeys as -> Hkeys.
    apply Sorted_inv in Hs as [Hs Hhd].
    inversion Hsound as [|? ? Hk Hsound']; subst. simpl in Hk.
    simpl. rewrite Hk, (IH o Hs Hsound' Hrest Hkeys).
    now apply insert_index_head.
Qed.

Lemma string_keys_listed (P : list (N * string)) (rest : list string) :
  Forall (fun p => array_index (snd p) = Some (fst p)) P ->
  forallb (fun k => negb (is_index k)) rest = true ->
  filter (fun k => negb (is_index k)) (map snd P ++ rest) = rest.
Proof.
  intros Hsound Hrest. rewrite filter_app, (filter_all _ rest Hrest).
  induction Hsound as [|[n k] P Hk _ IH]; simpl; [reflexivity|].
  unfold is_index at 1. simpl in Hk. rewrite Hk. simpl. exact IH.
Qed.

Lemma string_keys_all o :
  forallb (fun k => negb (is_index k)) (string_keys o) = true.
Proof.
  unfold string_keys. apply forallb_forall. intros k Hin.
  now apply filter_In in Hin.
Qed.

(** Listing the keys of an object in [Object.keys] order and asking again
    gives the same order. *)
Lemma keys_stable o o' : map fst o' = keys o -> keys o' = keys o.
Proof.
  intros Hk. unfold keys at 1, string_keys. rewrite Hk. unfold keys.
  rewrite (index_keys_listed (index_keys o) (string_keys o) o'
             (index_keys_sorted o) (index_keys_sound o)
             (string_keys_all o) Hk).
  now rewrite (string_keys_listed _ _ (index_keys_sound o) (string_keys_all o)).
Qed.

Lemma entries_map_fst o : map fst (entries o) = keys o.
Proof. unfold entries. rewrite map_map. apply map_id. Qed.

Lemma keys_entries o : keys (entries o) = map fst (entries o).
Proof.
  rewrite entries_map_fst. apply keys_stable, entries_map_fst.
Qed.

(** Setting a key that is no array index keeps an object in key order. *)
Lemma keys_set_string k v o :
  is_index k = false -> keys o = map fst o ->
  keys (set k v o) = map fst (set k v o).
Proof.
  intros Hk Ho. rewrite keys_set. destruct (has o k) eqn:Eh.
  - rewrite app_nil_r, <- Ho. apply keys_ext.
    now rewrite keys_set, Eh, app_nil_r.
  - apply has_false in Eh. rewrite (set_fresh k v o Eh).
    unfold keys, string_keys in *. rewrite map_app, filter_app. simpl.
    rewrite Hk. simpl.
    assert (Hidx : index_keys (o ++ [(k, v)]) = index_keys o).
    { clear Ho Eh. induction o as [|[k0 v0] o IH]; simpl.
      - unfold is_index in Hk. now destruct (array_index k).
      - now rewrite IH. }
    rewrite Hidx, app_assoc. now rewrite Ho.
Qed.

Lemma keys_assign_strings l o :
  forallb (fun k => negb (is_index k)) (map fst l) = true ->
  keys o = map fst o ->
  keys (assign_all l o) = map fst (assign_all l o).
Proof.
  revert o. induction l as [|[k v] l IH]; simpl; intros o Hl Ho; [assumption|].
  apply andb_prop in Hl as [Hk Hl]. unfold assign_all in *. simpl.
  apply IH; [assumption|].
  apply keys_set_string; [|assumption]. now destruct (is_index k).
Qed.

(** An object without duplicate keys, stored in key order, is its own list
    of entries. *)
Lemma entries_fixed o : wf o -> keys o = map fst o -> entries o = o.
Proof.
  intros Hwf Hk. unfold entries. rewrite Hk, map_map.
  rewrite <- (map_id o) at 2. apply map_ext_in.
  intros [k v] Hin. simpl. unfold get.
  now rewrite (lookup_In o k v Hwf Hin).
Qed.

(** The copy made by a spread is the list of entries. *)
Lemma copy_entries o : wf o -> assign_all (entries o) [] = entries o.
Proof.
  intros Hwf. rewrite assign_all_fresh; [reflexivity| |reflexivity].
  rewrite entries_map_fst. now apply keys_NoDup.
Qed.

Lemma spread_eq o more :
  wf o -> spread o more = assign_all more (entries o).
Proof.
  intros Hwf. unfold spread, assign_all. rewrite fold_left_app.
  fold (assign_all (entries o) []). now rewrite (copy_entries o Hwf).
Qed.

(** Spreading the same properties a second time gives the same object. *)
Lemma spread_twice o more :
  wf o ->
  NoDup (map fst more) ->
  forallb (fun k => negb (is_index k)) (map fst more) = true ->
  spread (spread o more) more = spread o more.
Proof.
  intros Hwf Hnd Hstr.
  assert (Hwf' : wf (spread o more)) by apply wf_spread.
  rewrite (spread_eq (spread o more) more Hwf').
  assert (Hk : keys (spread o more) = map fst (spread o more)).
  { rewrite (spread_eq o more Hwf).
    apply keys_assign_strings; [assumption|apply keys_entries]. }
  rewrite (entries_fixed _ Hwf' Hk).
  apply assign_all_same. intros k v Hin.
  rewrite lookup_spread.
  assert (Hl : lookup (assign_all more []) k = Some v).
  { rewrite assign_all_fresh by (assumption || reflexivity). simpl.
    now apply lookup_In. }
  now rewrite Hl.
Qed.

End ObjectOrder.

(** ** The constructor in closed form *)

(** X1. The constructed session is idle, keeps the configured source, name,
    debug flag and processor, and its option set is the seven base flags in
    their written order, then [-map] if [mapvideo] is set (holding
    [mapaudio] instead when audio and [mapaudio] are set too), then
    [-filter:v] if a filter is set, then with audio on the four audio flags
    and, if only [mapaudio] is set, [-map] last. *)
Theorem constructor_closed_form (processor : string) (cam : camera) :
  let vc := camera_videoConfig cam in
  constructor processor cam
  = mkStreamService processor (name cam) (vc_debug vc)
      (mkStreamOptions (SourceString (vc_source vc))
         (base_options vc
          ++ (if JS.truthy (vc_mapvideo vc)
              then [("-map",
                     if JS.truthy (vc_audio vc) && JS.truthy (vc_mapaudio vc)
                     then vc_mapaudio vc else vc_mapvideo vc)]
              else [])
          ++ (if JS.truthy (vc_videoFilter vc)
              then [("-filter:v", vc_videoFilter vc)] else [])
          ++ (if JS.truthy (vc_audio vc)
              then audio_bundle
                   ++ (if JS.truthy (vc_mapaudio vc)
                          && negb (JS.truthy (vc_mapvideo vc))
                       then [("-map", vc_mapaudio vc)] else [])
              else [])))
      None.
Proof.
  intros vc. unfold constructor. fold vc.
  destruct (JS.truthy (vc_mapvideo vc)), (JS.truthy (vc_videoFilter vc)),
    (JS.truthy (vc_audio vc)), (JS.truthy (vc_mapaudio vc)); reflexivity.
Qed.

(** X2. The constructed option set has no key twice and no array-index
    key, so [Object.entries] lists it exactly as it was built: a session
    that is started as constructed emits its flags in that order. *)
Theorem constructor_entries_in_order (processor : string) (cam : camera) :
  JS.wf (flags (constructor processor cam))
  /\ JS.entries (flags (constructor processor cam))
     = flags (constructor processor cam).
Proof.
  assert (Hboth : JS.wf (flags (constructor processor cam))
                  /\ forallb (fun k => negb (JS.is_index k))
                       (map fst (flags (constructor processor cam))) = true).
  { unfold constructor, JS.wf. set (vc := camera_videoConfig cam).
    destruct (JS.truthy (vc_mapvideo vc)), (JS.truthy (vc_videoFilter vc)),
      (JS.truthy (vc_audio vc)), (JS.truthy (vc_mapaudio vc));
      (split; [|reflexivity]); cbv -[JS.ToString String.append];
      repeat (constructor; [simpl; intuition discriminate|]); constructor. }
  destruct Hboth as [Hwf Hstr]. split; [exact Hwf|].
  now apply entries_insertion_order.
Qed.

(** X3. With audio off in the camera configuration, the constructed option
    set has no audio-bundle flag and no [-an], and [mapaudio] is ignored:
    [-map] is the video map when that is set and absent otherwise. *)
Theorem constructor_without_audio (processor : string) (cam : camera) :
  JS.truthy (vc_audio (camera_videoConfig cam)) = false ->
  (forall k, In k ("-an" :: audio_flags) ->
             JS.lookup (flags (constructor processor cam)) k = None)
  /\ JS.lookup (flags (constructor processor cam)) "-map"
     = (if JS.truthy (vc_mapvideo (camera_videoConfig cam))
        then Some (vc_mapvideo (camera_videoConfig cam)) else None).
Proof.
  intros Ha. unfold constructor. rewrite Ha.
  set (vc := camera_videoConfig cam).
  destruct (JS.truthy (vc_mapvideo vc)), (JS.truthy (vc_videoFilter vc));
    (split; [intros k [<-|[<-|[<-|[<-|[<-|[]]]]]]|]; reflexivity).
Qed.

Lemma constructor_without_audio_witness :
  (forall k, In k ("-an" :: audio_flags) ->
             JS.lookup (flags (constructor "ffmpeg" Samples.filtered_camera)) k
             = None)
  /\ JS.lookup (flags (constructor "ffmpeg" Samples.filtered_camera)) "-map"
     = Some (JS.Str "0:0").
Proof.
  apply (constructor_without_audio "ffmpeg" Samples.filtered_camera).
  reflexivity.
Defined.

(** ** The override layer, further *)

Section Override.

Import JS JSFacts OptionLayer ObjectOrder.

Lemma strict_eq_Str v n : strict_eq v (Str n) = true <-> v = Str n.
Proof.
  destruct v; simpl; split; try discriminate.
  - intros E. apply String.eqb_eq in E. now subst.
  - intros [= ->]. apply String.eqb_refl.
Qed.

Lemma find_setting_passed n pre rest :
  Forall (passed_over n) pre -> find_setting n (pre ++ rest) = find_setting n rest.
Proof.
  unfold find_setting. induction 1 as [|[c|] pre Hp _ IH]; simpl;
    [reflexivity| |exact IH].
  destruct (strict_eq (cs_name c) (Str n)) eqn:E; [|exact IH].
  apply strict_eq_Str in E. contradiction.
Qed.

Lemma find_setting_here n c rest :
  cs_name c = Str n -> find_setting n (Some c :: rest) = Some c.
Proof.
  intros Hc. unfold find_setting. simpl.
  now rewrite (proj2 (strict_eq_Str (cs_name c) n) Hc).
Qed.

Lemma update_options_flags s o :
  flags s = o -> update_options (fun _ => o) s = s.
Proof. intros <-. now destruct s as [? ? ? [? ?] ?]. Qed.

Lemma configureStreamOptions_flags db s :
  configureStreamOptions db s
  = update_options (fun _ => flags (configureStreamOptions db s)) s.
Proof.
  unfold configureStreamOptions.
  destruct (find_setting _ db) as [c|].
  - destruct (truthy (cs_resolution c)), (truthy (cs_audio c)); reflexivity.
  - now destruct s as [? ? ? [? ?] ?].
Qed.

Lemma lookup_with_resolution c o k :
  k <> "-s" -> lookup (with_resolution c o) k = lookup o k.
Proof.
  intros Hk. unfold with_resolution. destruct (truthy _); [|reflexivity].
  apply lookup_set_other. congruence.
Qed.

Lemma lookup_resolution c o :
  lookup (with_resolution c o) "-s"
  = if truthy (cs_resolution c) then Some (cs_resolution c) else lookup o "-s".
Proof.
  unfold with_resolution. destruct (truthy _); [|reflexivity].
  apply lookup_set_same.
Qed.

Lemma with_resolution_again c o :
  lookup o "-s"
  = (if truthy (cs_resolution c) then Some (cs_resolution c) else lookup o "-s") ->
  with_resolution c o = o.
Proof.
  unfold with_resolution. destruct (truthy _); [|reflexivity].
  intros Hl. now apply set_same.
Qed.

End Override.

(** X4. When every element of the persisted settings is [null] or names
    another camera, [configureStreamOptions] leaves the session exactly as
    it was. *)
Theorem configure_without_record (db : list (option cameraSetting))
    (s : StreamService) :
  Forall (passed_over (cameraName s)) db ->
  configureStreamOptions db s = s.
Proof.
  intros Hdb. apply OptionLayer.configureStreamOptions_absent.
  rewrite <- (app_nil_r db). now rewrite find_setting_passed.
Qed.

Lemma configure_without_record_witness :
  configureStreamOptions Samples.db_others
    (constructor "ffmpeg" Examples.audio_camera)
  = constructor "ffmpeg" Examples.audio_camera.
Proof.
  apply (configure_without_record Samples.db_others
           (constructor "ffmpeg" Examples.audio_camera)).
  repeat constructor. discriminate.
Defined.

(** X5. Only the first record that names the camera counts: [null] elements
    and records of other cameras before it are skipped, and whatever
    follows it, further records of the same camera included, is ignored. *)
Theorem configure_first_match (pre post : list (option cameraSetting))
    (c : cameraSetting) (s : StreamService) :
  Forall (passed_over (cameraName s)) pre ->
  cs_name c = JS.Str (cameraName s) ->
  configureStreamOptions (pre ++ Some c :: post) s
  = configureStreamOptions [Some c] s.
Proof.
  intros Hpre Hc. unfold configureStreamOptions.
  rewrite (find_setting_passed _ pre _ Hpre).
  now rewrite !(find_setting_here _ c _ Hc).
Qed.

Lemma configure_first_match_witness :
  configureStreamOptions Samples.db_twice
    (constructor "ffmpeg" Examples.audio_camera)
  = configureStreamOptions [Some Examples.setting_off]
      (constructor "ffmpeg" Examples.audio_camera).
Proof.
  apply (configure_first_match [None; Some Examples.other_setting]
           [Some Examples.setting_on] Examples.setting_off
           (constructor "ffmpeg" Examples.audio_camera)).
  - repeat constructor. discriminate.
  - reflexivity.
Defined.

(** X6. With a matching record, [-s] becomes the record's resolution when
    that is truthy and keeps its value (or its absence) otherwise, in the
    audio branch and in the no-audio branch alike. *)
Theorem configure_resolution (db : list (option cameraSetting))
    (s : StreamService) (c : cameraSetting) :
  find_setting (cameraName s) db = Some c ->
  JS.lookup (flags (configureStreamOptions db s)) "-s"
  = if JS.truthy (cs_resolution c) then Some (cs_resolution c)
    else JS.lookup (flags s) "-s".
Proof.
  intros Hf. destruct (JS.truthy (cs_audio c)) eqn:Ha.
  - rewrite (OptionLayer.configureStreamOptions_on db s c Hf Ha).
    rewrite JSFacts.lookup_spread. cbn [JS.assign_all fold_left audio_bundle].
    simpl (JS.lookup _ "-s") at 1.
    rewrite JSFacts.lookup_delete_other by discriminate.
    apply lookup_resolution.
  - rewrite (OptionLayer.configureStreamOptions_off db s c Hf Ha).
    rewrite JSFacts.lookup_set_other by discriminate.
    rewrite !JSFacts.lookup_delete_other by discriminate.
    apply lookup_resolution.
Qed.

Lemma configure_resolution_witness :
  JS.lookup (flags (configureStreamOptions Examples.db_on
                      (constructor "ffmpeg" Examples.quiet_camera))) "-s"
  = Some (JS.Str "640x480").
Proof.
  apply (configure_resolution Examples.db_on
           (constructor "ffmpeg" Examples.quiet_camera) Examples.setting_on).
  reflexivity.
Defined.

(** X7. [configureStreamOptions] reads and writes six keys only: every
    flag other than [-s], [-an] and the four audio flags has after the call
    the value it had before, or is absent as before. *)
Theorem configure_leaves_other_flags (db : list (option cameraSetting))
    (s : StreamService) (k : string) :
  ~ In k ("-s" :: "-an" :: audio_flags) ->
  JS.lookup (flags (configureStreamOptions db s)) k = JS.lookup (flags s) k.
Proof.
  intros Hk.
  assert (Hs : k <> "-s") by (intros ->; apply Hk; now left).
  assert (Han : "-an" <> k) by (intros <-; apply Hk; right; now left).
  assert (Hb : forall a, In a audio_flags -> a <> k)
    by (intros a Ha <-; apply Hk; right; now right).
  destruct (find_setting (cameraName s) db) as [c|] eqn:Hf;
    [|now rewrite OptionLayer.configureStreamOptions_absent].
  destruct (JS.truthy (cs_audio c)) eqn:Ha.
  - rewrite (OptionLayer.configureStreamOptions_on db s c Hf Ha).
    rewrite JSFacts.lookup_spread.
    assert (Hnb : JS.lookup (JS.assign_all audio_bundle []) k = None).
    { apply JSFacts.lookup_None_iff. intros Hin. simpl in Hin.
      destruct Hin as [E|[E|[E|[E|[]]]]];
        (eapply Hb; [|exact E]); simpl; tauto. }
    rewrite Hnb, JSFacts.lookup_delete_other by assumption.
    now apply lookup_with_resolution.
  - rewrite (OptionLayer.configureStreamOptions_off db s c Hf Ha).
    rewrite JSFacts.lookup_set_other by assumption.
    rewrite !JSFacts.lookup_delete_other by (apply Hb; simpl; tauto).
    now apply lookup_with_resolution.
Qed.

Lemma configure_leaves_other_flags_witness :
  JS.lookup (flags (configureStreamOptions Examples.db_off
                      (constructor "ffmpeg" Examples.audio_camera))) "-map"
  = Some (JS.Str "0:1").
Proof.
  apply (configure_leaves_other_flags Examples.db_off
           (constructor "ffmpeg" Examples.audio_camera) "-map").
  simpl. intuition discriminate.
Defined.

(** X8. Applying the same persisted settings twice is the same as applying
    them once: the second call changes no field, no flag and no position
    of a flag. *)
Theorem configure_idempotent (db : list (option cameraSetting))
    (s : StreamService) :
  JS.wf (flags s) ->
  configureStreamOptions db (configureStreamOptions db s)
  = configureStreamOptions db s.
Proof.
  intros Hwf.
  rewrite (configureStreamOptions_flags db (configureStreamOptions db s)).
  apply update_options_flags. symmetry.
  destruct (find_setting (cameraName s) db) as [c|] eqn:Hf.
  - assert (Hf' : find_setting (cameraName (configureStreamOptions db s)) db
                  = Some c)
      by now rewrite OptionLayer.configureStreamOptions_cameraName.

    destruct (JS.truthy (cs_audio c)) eqn:Ha.
    + rewrite (OptionLayer.configureStreamOptions_on db _ c Hf' Ha).
      rewrite (OptionLayer.configureStreamOptions_on db s c Hf Ha).
      set (X := JS.delete "-an" (with_resolution c (flags s))).
      assert (HwfX : JS.wf X)
        by now apply JSFacts.wf_delete, OptionLayer.wf_with_resolution.
      destruct (OptionLayer.enabled_audio_on (with_resolution c (flags s)))
        as [_ Hno]. fold X in Hno.
      rewrite with_resolution_again.
      * rewrite (ObjectOrder.delete_absent _ _ Hno).
        apply ObjectOrder.spread_twice; [assumption| |reflexivity].
        simpl. repeat (constructor; [simpl; intuition discriminate|]).
        constructor.
      * rewrite JSFacts.lookup_spread. simpl (JS.lookup _ "-s") at 2.
        unfold X. rewrite JSFacts.lookup_delete_other by discriminate.
        rewrite lookup_resolution.
        now destruct (JS.truthy (cs_resolution c)).
    + rewrite (OptionLayer.configureStreamOptions_off db _ c Hf' Ha).
      rewrite (OptionLayer.configureStreamOptions_off db s c Hf Ha).
      set (Y := with_resolution c (flags s)).
      destruct (OptionLayer.disabled_lookups Y) as [Hb Han].
      cbv zeta in Hb, Han.
      set (R := JS.set "-an" (JS.Str "") _) in *.
      rewrite with_resolution_again.
      * rewrite (ObjectOrder.delete_absent "-codec:a" R)
          by (apply Hb; simpl; tauto).
        rewrite (ObjectOrder.delete_absent "-ar" R) by (apply Hb; simpl; tauto).
        rewrite (ObjectOrder.delete_absent "-ac" R) by (apply Hb; simpl; tauto).
        rewrite (ObjectOrder.delete_absent "-b:a" R) by (apply Hb; simpl; tauto).
        now apply ObjectOrder.set_same.
      * unfold R. rewrite JSFacts.lookup_set_other by discriminate.
        rewrite !JSFacts.lookup_delete_other by discriminate.
        unfold Y. rewrite lookup_resolution.
        now destruct (JS.truthy (cs_resolution c)).
  - now rewrite !OptionLayer.configureStreamOptions_absent
      by (rewrite ?OptionLayer.configureStreamOptions_absent; assumption).
Qed.

Lemma configure_idempotent_witness :
  configureStreamOptions Examples.db_on
    (configureStreamOptions Examples.db_on
       (constructor "ffmpeg" Examples.quiet_camera))
  = configureStreamOptions Examples.db_on
      (constructor "ffmpeg" Examples.quiet_camera).
Proof.
  apply (configure_idempotent Examples.db_on
           (constructor "ffmpeg" Examples.quiet_camera)).
  unfold JS.wf. cbv -[JS.ToString String.append].
  repeat (constructor; [simpl; intuition discriminate|]). constructor.
Defined.

(** ** The runtime mutators *)

Section Mutators.

Import JS JSFacts OptionLayer ObjectOrder.

Lemma keys_assign_all l o :
  exists added,
    map fst (assign_all l o) = map fst o ++ added
    /\ forall k, In k added -> has o k = false /\ In k (map fst l).
Proof.
  revert o. induction l as [|[k v] l IH]; intros o.
  - exists []. simpl. rewrite app_nil_r. now split.
  - unfold assign_all in *. simpl.
    destruct (IH (set k v o)) as (added & Heq & Hadded).
    rewrite keys_set in Heq. destruct (has o k) eqn:Eh.
    + exists added. rewrite app_nil_r in Heq. split; [exact Heq|].
      intros k' Hin. destruct (Hadded k' Hin) as [Hh Hin']. split; [|now right].
      apply has_false. apply has_false in Hh.
      destruct (string_dec k k') as [->|Hne];
        [now rewrite lookup_set_same in Hh
        |now rewrite lookup_set_other in Hh].
    + exists (k :: added). rewrite <- app_assoc in Heq. split; [exact Heq|].
      intros k' [<-|Hin]; [split; [assumption|now left]|].
      destruct (Hadded k' Hin) as [Hh Hin']. split; [|now right].
      apply has_false. apply has_false in Hh.
      destruct (string_dec k k') as [->|Hne];
        [now rewrite lookup_set_same in Hh
        |now rewrite lookup_set_other in Hh].
Qed.

Lemma filter_none {A} (f : A -> bool) l :
  (forall x, In x l -> f x = false) -> filter f l = [].
Proof.
  induction l as [|a l IH]; simpl; intros Hall; [reflexivity|].
  rewrite (Hall a) by now left. apply IH. intros x Hx. apply Hall. now right.
Qed.

Lemma delete_each (l : list value) o :
  fold_left (fun o p => delete (ToString p) o) l o
  = filter (fun kv => negb (existsb (fun p => fst kv =? ToString p) l)) o.
Proof.
  transitivity (fold_left (fun o k => delete k o) (map ToString l) o).
  - revert o. induction l as [|p l IH]; intros o; simpl; [reflexivity|].
    apply IH.
  - rewrite delete_all. apply filter_ext. intros kv. f_equal.
    induction l as [|p l IH]; simpl; [reflexivity|now rewrite IH].
Qed.

End Mutators.

(** X9. [setStreamOptions] merges: given an object without a [__proto__]
    key, afterwards a key of [options] has the value [options] gives it,
    and every other key has what the session had (or is absent, as
    before). *)
Theorem setStreamOptions_merges (options : JS.object) (s : StreamService)
    (k : string) :
  JS.has options "__proto__" = false ->
  JS.lookup (flags (setStreamOptions options s)) k
  = match JS.lookup options k with
    | Some v => Some v
    | None => JS.lookup (flags s) k
    end.
Proof.
  intros _.
  rewrite setStreamOptions_eq, OptionLayer.flags_update_options.
  rewrite JSFacts.lookup_assign_all. now rewrite JSFacts.lookup_copy.
Qed.

Lemma setStreamOptions_merges_witness :
  JS.lookup (flags (setStreamOptions Samples.tune
                      (constructor "ffmpeg" Examples.quiet_camera))) "-r"
  = Some (JS.Num 25)
  /\ JS.lookup (flags (setStreamOptions Samples.tune
                         (constructor "ffmpeg" Examples.quiet_camera))) "-bf"
     = Some (JS.Num 0).
Proof.
  split.
  - apply (setStreamOptions_merges Samples.tune
             (constructor "ffmpeg" Examples.quiet_camera) "-r"). reflexivity.
  - apply (setStreamOptions_merges Samples.tune
             (constructor "ffmpeg" Examples.quiet_camera) "-bf"). reflexivity.
Defined.

Lemma index_keys_app_strings (o1 o2 : JS.object) :
  forallb (fun k => negb (JS.is_index k)) (map fst o2) = true ->
  JS.index_keys (o1 ++ o2) = JS.index_keys o1.
Proof.
  intros Hstr. induction o1 as [|[k v] o1 IH]; simpl.
  - now apply JSFacts.index_keys_none.
  - now rewrite IH.
Qed.

(** X10. [setStreamOptions] with an object whose keys are neither array
    indices nor [__proto__] never moves a flag: [Object.keys] of the option
    set afterwards is [Object.keys] of before, overwritten flags where they
    were, followed by the keys that are new. *)
Theorem setStreamOptions_keeps_positions (options : JS.object)
    (s : StreamService) :
  plain_keys options = true ->
  exists added,
    JS.keys (flags (setStreamOptions options s)) = JS.keys (flags s) ++ added
    /\ forall k, In k added ->
         JS.has (flags s) k = false /\ JS.has options k = true.
Proof.
  intros Hplain.
  rewrite setStreamOptions_eq, OptionLayer.flags_update_options.
  destruct (keys_assign_all (JS.entries options) (flags s))
    as (added & Heq & Hadded).
  assert (Hopt : forall k, In k added ->
                   JS.has options k = true /\ JS.is_index k = false).
  { intros k Hin. destruct (Hadded k Hin) as [_ Hk].
    rewrite ObjectOrder.entries_map_fst in Hk. apply JSFacts.In_keys in Hk.
    split.
    - apply JSFacts.has_lookup. intros Hn.
      now apply JSFacts.lookup_None_iff in Hn.
    - unfold plain_keys in Hplain. rewrite forallb_forall in Hplain.
      specialize (Hplain k Hk). apply andb_prop in Hplain as [Hi _].
      now destruct (JS.is_index k). }
  assert (Hstr : forallb (fun k => negb (JS.is_index k)) added = true).
  { apply forallb_forall. intros k Hin. destruct (Hopt k Hin) as [_ Hi].
    now rewrite Hi. }
  exists added. split.
  - unfold JS.keys, JS.string_keys. rewrite Heq, filter_app.
    rewrite (JSFacts.filter_all _ added Hstr), app_assoc. f_equal. f_equal.
    rewrite (ObjectOrder.index_keys_ext _
               (flags s ++ map (fun k => (k, JS.Undefined)) added)).
    + f_equal. apply index_keys_app_strings. rewrite map_map. simpl.
      now rewrite map_id.
    + rewrite Heq, map_app, map_map. simpl. now rewrite map_id.
  - intros k Hin. split; [apply (Hadded k Hin)|apply (Hopt k Hin)].
Qed.

Lemma setStreamOptions_keeps_positions_witness :
  exists added,
    JS.keys (flags (setStreamOptions Samples.tune
                      (constructor "ffmpeg" Examples.quiet_camera)))
    = JS.keys (flags (constructor "ffmpeg" Examples.quiet_camera)) ++ added
    /\ forall k, In k added ->
         JS.has (flags (constructor "ffmpeg" Examples.quiet_camera)) k = false
         /\ JS.has Samples.tune k = true.
Proof.
  apply (setStreamOptions_keeps_positions Samples.tune
           (constructor "ffmpeg" Examples.quiet_camera)).
  reflexivity.
Defined.

(** X11. [delStreamOptions] removes exactly the flags whose name is the
    string form of an element of the list, and keeps all others with their
    values and in their order; naming a flag that is absent, or naming one
    twice, is harmless. *)
Theorem delStreamOptions_filters (options : list JS.value)
    (s : StreamService) :
  flags (delStreamOptions options s)
  = filter (fun kv =>
              negb (existsb (fun p => fst kv =? JS.ToString p) options))
           (flags s).
Proof.
  rewrite delStreamOptions_eq, OptionLayer.flags_update_options.
  apply delete_each.
Qed.

(** X12. Setting flags that the session does not have and then deleting
    the keys of the same object restores the option set exactly. *)
Theorem set_then_del_restores (options : JS.object) (s : StreamService) :
  JS.wf options ->
  (forall k, In k (JS.keys options) -> JS.lookup (flags s) k = None) ->
  flags (delStreamOptions (map JS.Str (JS.keys options))
           (setStreamOptions options s))
  = flags s.
Proof.
  intros Hwf Hfresh.
  rewrite delStreamOptions_eq, OptionLayer.flags_update_options, delete_each.
  rewrite setStreamOptions_eq, OptionLayer.flags_update_options.
  rewrite ObjectOrder.assign_all_fresh;
    [|rewrite ObjectOrder.entries_map_fst; now apply JSFacts.keys_NoDup
     |intros k Hk; apply Hfresh; now rewrite <- ObjectOrder.entries_map_fst].
  rewrite filter_app.
  assert (Hin : forall k,
             existsb (fun p => k =? JS.ToString p) (map JS.Str (JS.keys options))
             = true <-> In k (JS.keys options)).
  { intros k. rewrite existsb_exists. split.
    - intros (p & Hp & E). apply in_map_iff in Hp as (k' & <- & Hk').
      simpl in E. apply String.eqb_eq in E. now subst.
    - intros Hk. exists (JS.Str k). split; [now apply in_map|].
      simpl. apply String.eqb_refl. }
  rewrite JSFacts.filter_all.
  - rewrite filter_none; [apply app_nil_r|].
    intros [k v] Hkv. simpl. apply negb_false_iff.
    apply Hin. rewrite <- ObjectOrder.entries_map_fst.
    apply in_map_iff. now exists (k, v).
  - apply forallb_forall. intros [k v] Hkv. simpl.
    destruct (existsb _ _) eqn:E; [|reflexivity].
    apply Hin in E. apply Hfresh in E.
    apply JSFacts.lookup_None_iff in E. exfalso. apply E.
    apply in_map_iff. now exists (k, v).
Qed.

Lemma set_then_del_restores_witness :
  flags (delStreamOptions (map JS.Str (JS.keys Samples.only_new))
           (setStreamOptions Samples.only_new
              (constructor "ffmpeg" Examples.audio_camera)))
  = flags (constructor "ffmpeg" Examples.audio_camera).
Proof.
  apply (set_then_del_restores Samples.only_new
           (constructor "ffmpeg" Examples.audio_camera)).
  - unfold JS.wf. simpl.
    repeat (constructor; [simpl; intuition discriminate|]). constructor.
  - intros k [<-|[<-|[]]]; reflexivity.
Defined.

(** X13. The three mutators of the option set change nothing else: the
    processor, the camera name, the debug flag, the source and the process
    handle are as before. *)
Theorem mutators_only_touch_flags (s : StreamService)
    (db : list (option cameraSetting)) (options : JS.object)
    (names : list JS.value) :
  same_but_flags s (configureStreamOptions db s)
  /\ same_but_flags s (setStreamOptions options s)
  /\ same_but_flags s (delStreamOptions names s).
Proof.
  rewrite (configureStreamOptions_flags db s), setStreamOptions_eq,
    delStreamOptions_eq.
  unfold same_but_flags. simpl. tauto.
Qed.

(** ** The life cycle, further *)

Section Lifecycle2.

Context {Ctl : Type} `{SessionService Ctl}.

Lemma start_fixed (w : world Ctl) :
  fixed_fields (self (snd (start w))) = fixed_fields (self w).
Proof.
  destruct (start_self w) as [->|[p ->]]; reflexivity.
Qed.

Lemma step_fixed (w w' : world Ctl) e :
  step w e = Some w' -> fixed_fields (self w') = fixed_fields (self w).
Proof.
  intros Hstep.
  destruct e as [db| | | |src|options|options|p code signal|];
    cbn [step] in Hstep.
  - injection Hstep as <-. cbn [snd assign self].
    now rewrite (configureStreamOptions_flags db (self w)).
  - injection Hstep as <-. apply start_fixed.
  - injection Hstep as <-. unfold stop, bind, this.
    now destruct (streamSession (self w)).
  - injection Hstep as <-.
    destruct (streamSession (self w)) as [p|] eqn:Hs.
    + now rewrite (restart_running w p Hs).
    + rewrite (restart_idle w Hs). apply start_fixed.
  - rewrite setStreamSource_throws in Hstep. now injection Hstep as <-.
  - injection Hstep as <-. cbn [snd assign self].
    now rewrite setStreamOptions_eq.
  - injection Hstep as <-. cbn [snd assign self].
    now rewrite delStreamOptions_eq.
  - destruct (existsb (Nat.eqb p) (children w)); [|discriminate].
    injection Hstep as <-. now rewrite on_exit_eq.
  - destruct (timers w); [discriminate|].
    injection Hstep as <-. apply (start_fixed (drop_timer w)).
Qed.

Lemma run_fixed (w w' : world Ctl) es :
  run w es = Some w' -> fixed_fields (self w') = fixed_fields (self w).
Proof.
  revert w. induction es as [|e es IH]; simpl; intros w Hrun.
  - now injection Hrun as <-.
  - destruct (step w e) as [w1|] eqn:Hstep; [|discriminate].
    rewrite (IH w1 Hrun). now apply (step_fixed w w1 e).
Qed.

End Lifecycle2.

(** X14. A session never has two children alive: in every world reachable
    from construction the live children are exactly the handle of the
    session, one process or none. *)
Theorem at_most_one_child {Ctl : Type} `{SessionService Ctl}
    (processor : string) (cam : camera) (c0 : Ctl)
    (es : list event) (w : world Ctl) :
  run (init processor cam c0) es = Some w ->
  children w = match streamSession (self w) with
               | Some p => [p]
               | None => []
               end
  /\ List.length (children w) <= 1.
Proof.
  intros Hrun.
  destruct (inv_run _ w es (inv_init processor cam c0) Hrun) as (_ & Hch & _).
  split; [exact Hch|]. rewrite Hch.
  destruct (streamSession (self w)); simpl; lia.
Qed.

Lemma at_most_one_child_witness :
  children Scenario.running = [0] /\ List.length (children Scenario.running) <= 1.
Proof.
  apply (at_most_one_child "ffmpeg" Examples.quiet_camera (SlotPool 1 0)
           [CallStart] Scenario.running).
  reflexivity.
Defined.

(** X15. Nothing that can happen to a session changes its source, its
    camera name, its debug flag or its processor: they are those of the
    construction for good. In particular no call of [setStreamSource], with
    an input marker or without, ever replaces the source. *)
Theorem source_is_fixed {Ctl : Type} `{SessionService Ctl}
    (processor : string) (cam : camera) (c0 : Ctl)
    (es : list event) (w : world Ctl) :
  run (init processor cam c0) es = Some w ->
  source (streamOptions (self w))
  = SourceString (vc_source (camera_videoConfig cam))
  /\ cameraName (self w) = name cam
  /\ debug (self w) = vc_debug (camera_videoConfig cam)
  /\ videoProcessor (self w) = processor.
Proof.
  intros Hrun. pose proof (run_fixed _ w es Hrun) as Hfix.
  assert (Hinit : fixed_fields (self (init processor cam c0))
                  = (processor, name cam, vc_debug (camera_videoConfig cam),
                     SourceString (vc_source (camera_videoConfig cam)))).
  { unfold init, constructor. cbn [self].
    set (vc := camera_videoConfig cam).
    destruct (JS.truthy (vc_mapvideo vc)), (JS.truthy (vc_videoFilter vc)),
      (JS.truthy (vc_audio vc)), (JS.truthy (vc_mapaudio vc)); reflexivity. }
  rewrite Hinit in Hfix. unfold fixed_fields in Hfix.
  injection Hfix as Hp Hn Hd Hs. now repeat split.
Qed.

Lemma source_is_fixed_witness :
  source (streamOptions (self Scenario.running))
  = SourceString "-i rtsp://192.168.0.10/live"
  /\ cameraName (self Scenario.running) = "Front Door"
  /\ debug (self Scenario.running) = JS.Undefined
  /\ videoProcessor (self Scenario.running) = "ffmpeg".
Proof.
  apply (source_is_fixed "ffmpeg" Examples.quiet_camera (SlotPool 1 0)
           [CallSetStreamSource "-i rtsp://192.168.0.99/other"; CallStart]
           Scenario.running).
  reflexivity.
Defined.



(** X17. [stop()] only signals: with a process running it logs, sends the
    kill to that process and changes nothing, so the handle stays and the
    slot stays taken until the [exit] event; a [start()] right after it
    does nothing. On an idle session [stop()] does nothing at all. *)
Theorem stop_only_signals {Ctl : Type} `{SessionService Ctl} (w : world Ctl) :
  (forall p, streamSession (self w) = Some p ->
     run w [CallStop; CallStart]
     = Some (World (self w) (sessions w) (children w) (next_child w) (timers w)
               (trace w ++
                [Log Debug "Stopping stream.." (Some (cameraName (self w)));
                 Kill p])))
  /\ (streamSession (self w) = None -> run w [CallStop] = Some w).
Proof.
  split.
  - intros p Hs. cbn [run step]. rewrite (stop_running w p Hs). cbn [snd].
    now rewrite (start_running _ p) by exact Hs.
  - intros Hs. cbn [run step]. now rewrite (stop_idle w Hs).
Qed.

Lemma stop_only_signals_witness :
  run Scenario.running [CallStop; CallStart]
  = Some (World (self Scenario.running) (sessions Scenario.running)
            (children Scenario.running) (next_child Scenario.running)
            (timers Scenario.running)
            (trace Scenario.running ++
             [Log Debug "Stopping stream.." (Some "Front Door"); Kill 0]))
  /\ run Scenario.fresh [CallStop] = Some Scenario.fresh.
Proof.
  split.
  - apply (proj1 (stop_only_signals Scenario.running) 0). reflexivity.
  - apply (proj2 (stop_only_signals Scenario.fresh)). reflexivity.
Defined.

(** X18. [restart()] on a running session can fail to restart: when the
    timer fires before the child has exited, the deferred [start()] finds
    the handle still set and does nothing, and after the [exit] the session
    is idle, with no process spawned and no timer left from this call. *)
Theorem restart_before_exit_stays_idle {Ctl : Type} `{SessionService Ctl}
    (processor : string) (cam : camera) (c0 : Ctl)
    (es : list event) (w : world Ctl) (p : pid) (code signal : JS.value) :
  run (init processor cam c0) es = Some w ->
  streamSession (self w) = Some p ->
  run w [CallRestart; TimerFires; Exit p code signal]
  = Some (World (update_session None (self w)) (closeSession (sessions w))
            [] (next_child w) (timers w)
            (trace w ++
             [Log Debug "Stopping stream.." (Some (cameraName (self w)));
              Kill p; SetTimeout 1500;
              exit_log code signal (cameraName (self w)); CloseSession])).
Proof.
  intros Hrun Hs.
  destruct (inv_run _ w es (inv_init processor cam c0) Hrun) as (_ & Hch & _).
  rewrite Hs in Hch.
  cbn [run step]. rewrite (restart_running w p Hs). cbn [snd timers].
  rewrite (start_running _ p) by exact Hs. cbn [snd children drop_timer].
  rewrite Hch. cbn [existsb]. rewrite Nat.eqb_refl. cbn [orb].
  rewrite on_exit_eq. cbn. rewrite Nat.eqb_refl. cbn.
  now rewrite <- app_assoc.
Qed.

Lemma restart_before_exit_stays_idle_witness :
  run Scenario.running
    [CallRestart; TimerFires; Exit 0 JS.Null (JS.Str "SIGTERM")]
  = Some (World (update_session None (self Scenario.running))
            (SlotPool 1 0) [] 1 0
            (trace Scenario.running ++
             [Log Debug "Stopping stream.." (Some "Front Door");
              Kill 0; SetTimeout 1500;
              Log Debug "Stream exit (expected)" (Some "Front Door");
              CloseSession])).
Proof.
  exact (restart_before_exit_stays_idle "ffmpeg" Examples.quiet_camera
           (SlotPool 1 0) [CallStart] Scenario.running 0
           JS.Null (JS.Str "SIGTERM") eq_refl eq_refl).
Defined.

(** X19. [restart()] on a running session whose child exits before the
    timer fires: the exit frees the slot, and the deferred [start()] asks
    the controller again. If the slot is granted and [spawn], called with
    the arguments of the current options, returns a child, that child is
    the only one alive and is the handle of the session; if the slot is
    denied the session stays idle and logs the error. *)
Theorem restart_after_exit {Ctl : Type} `{SessionService Ctl}
    (processor : string) (cam : camera) (c0 : Ctl)
    (es : list event) (w : world Ctl) (p : pid) (code signal : JS.value)
    (granted : bool) (c : Ctl) :
  run (init processor cam c0) es = Some w ->
  streamSession (self w) = Some p ->
  requestSession (closeSession (sessions w)) = (granted, c) ->
  (granted = true ->
   fst (spawn (videoProcessor (self w))
          (spawnOptions (JS.split " " (vc_source (camera_videoConfig cam)))
             (flags (self w))) w)
   = JS.Normal (next_child w)) ->
  exists line,
    run w [CallRestart; Exit p code signal; TimerFires]
    = Some
        (if granted then
           World (update_session (Some (next_child w)) (self w)) c
             [next_child w] (S (next_child w)) (timers w)
             (trace w ++
              [Log Debug "Stopping stream.." (Some (cameraName (self w)));
               Kill p; SetTimeout 1500;
               exit_log code signal (cameraName (self w)); CloseSession;
               RequestSession true; line;
               Spawn (next_child w) (videoProcessor (self w))
                 (spawnOptions
                    (JS.split " " (vc_source (camera_videoConfig cam)))
                    (flags (self w)))])
         else
           World (update_session None (self w)) c [] (next_child w) (timers w)
             (trace w ++
              [Log Debug "Stopping stream.." (Some (cameraName (self w)));
               Kill p; SetTimeout 1500;
               exit_log code signal (cameraName (self w)); CloseSession;
               RequestSession false;
               Log Error "Not allowed to start stream. Session limit exceeded!"
                   (Some (cameraName (self w)))])).
Proof.
  intros Hrun Hs Hreq Hret.
  assert (Hacc : granted = true ->
                 spawn_accepts (videoProcessor (self w))
                   (spawnOptions
                      (JS.split " " (vc_source (camera_videoConfig cam)))
                      (flags (self w))) = true).
  { intros Hg. specialize (Hret Hg). unfold spawn in Hret.
    destruct (spawn_accepts _ _); [reflexivity|discriminate Hret]. }
  clear Hret.
  destruct (inv_run _ w es (inv_init processor cam c0) Hrun) as (_ & Hch & _).
  rewrite Hs in Hch.
  pose proof (run_fixed _ w es Hrun) as Hfix.
  assert (Hsrc : source (streamOptions (self w))
                 = SourceString (vc_source (camera_videoConfig cam))).
  { apply (f_equal snd) in Hfix. cbn [fixed_fields snd] in Hfix. rewrite Hfix.
    unfold init, constructor. cbn [self].
    set (vc := camera_videoConfig cam).
    destruct (JS.truthy (vc_mapvideo vc)), (JS.truthy (vc_videoFilter vc)),
      (JS.truthy (vc_audio vc)), (JS.truthy (vc_mapaudio vc)); reflexivity. }
  cbn [run step]. rewrite (restart_running w p Hs). cbn [snd children].
  rewrite Hch. cbn [existsb]. rewrite Nat.eqb_refl. cbn [orb].
  rewrite on_exit_eq. cbn [snd timers remove_child self sessions children
                            next_child trace filter].
  rewrite Nat.eqb_refl. cbn [negb].
  destruct granted.
  - eexists.
    rewrite (start_granted _ c (vc_source (camera_videoConfig cam)))
      by (try reflexivity; try assumption; exact (Hacc eq_refl)).
    cbn [snd drop_timer self sessions children next_child timers trace pred].
    rewrite <- !app_assoc. cbn [app]. reflexivity.
  - exists (Log Debug "" None).
    rewrite (start_denied _ c) by (try reflexivity; assumption).
    cbn [snd drop_timer self sessions children next_child timers trace pred].
    rewrite <- !app_assoc. cbn [app]. reflexivity.
Qed.

Lemma restart_after_exit_witness :
  exists line,
    run Scenario.running
      [CallRestart; Exit 0 JS.Null (JS.Str "SIGTERM"); TimerFires]
    = Some
        (World (update_session (Some 1) (self Scenario.running))
           (SlotPool 1 1) [1] 2 0
           (trace Scenario.running ++
            [Log Debug "Stopping stream.." (Some "Front Door");
             Kill 0; SetTimeout 1500;
             Log Debug "Stream exit (expected)" (Some "Front Door");
             CloseSession; RequestSession true; line;
             Spawn 1 "ffmpeg"
               (spawnOptions (JS.split " " "-i rtsp://192.168.0.10/live")
                  (flags (self Scenario.running)))])).
Proof.
  exact (restart_after_exit "ffmpeg" Examples.quiet_camera (SlotPool 1 0)
           [CallStart] Scenario.running 0 JS.Null (JS.Str "SIGTERM")
           true (SlotPool 1 1) eq_refl eq_refl eq_refl (fun _ => eq_refl)).
Defined.

(** ** The logged command and the emitted flags *)

Section CommandLine.

Import JS.

Lemma replace_all_app c b x y :
  replace_all c b (x ++ y) = (replace_all c b x ++ replace_all c b y)%string.
Proof. induction x as [|a x IH]; simpl; [reflexivity|now rewrite IH]. Qed.

Lemma Array_toString_join l : Array_toString l = join "," (map join_elem l).
Proof.
  induction l as [|v l IH]; [reflexivity|].
  destruct l as [|v' l]; [reflexivity|].
  cbn [Array_toString map join] in *. now rewrite IH.
Qed.

Lemma replace_join c b fields :
  replace_all c b (join c fields) = join b (map (replace_all c b) fields).
Proof.
  induction fields as [|f fields IH]; [reflexivity|].
  destruct fields as [|g fields]; [reflexivity|].
  cbn [join map] in *. rewrite replace_all_app. cbn [replace_all].
  rewrite Ascii.eqb_refl. now rewrite IH.
Qed.

Lemma replace_all_clean c b s : contains c s = false -> replace_all c b s = s.
Proof.
  induction s as [|a s IH]; simpl; [reflexivity|].
  destruct (Ascii.eqb a c); [discriminate|]. simpl. intros Hc. now rewrite IH.
Qed.

Lemma replace_all_gone c b s :
  Ascii.eqb b c = false -> contains c (replace_all c b s) = false.
Proof.
  intros Hb. induction s as [|a s IH]; simpl; [reflexivity|].
  destruct (Ascii.eqb a c) eqn:E; simpl; [now rewrite Hb|now rewrite E].
Qed.

(** What one entry of the option set contributes to the arguments. *)
Lemma filter_pairs (l : list (string * value)) :
  filter (fun t => negb (strict_eq t (Str "")))
    (flat_map (fun kv => [Str (fst kv); snd kv]) l)
  = flat_map (fun kv =>
                (if fst kv =? "" then [] else [Str (fst kv)])
                ++ (if strict_eq (snd kv) (Str "") then [] else [snd kv])) l.
Proof.
  induction l as [|[k v] l IH]; [reflexivity|].
  cbn [flat_map app filter fst snd]. rewrite IH.
  cbn [strict_eq]. destruct (k =? ""), (strict_eq v (Str "")); reflexivity.
Qed.

End CommandLine.

(** X20. The line that a granted [start()] logs is the processor followed
    by the arguments, separated by single spaces, each argument printed as
    [join] prints it ([null] and [undefined] as nothing) with its own
    commas turned into spaces as well: the line never has a comma after the
    processor, and shows the arguments verbatim when none has one. *)
Theorem start_logs_command {Ctl : Type} `{SessionService Ctl}
    (w : world Ctl) (src : string) :
  streamSession (self w) = None ->
  fst (requestSession (sessions w)) = true ->
  source (streamOptions (self w)) = SourceString src ->
  let args := spawnOptions (JS.split " " src) (flags (self w)) in
  let shown :=
    JS.join " " (map (fun a => JS.replace_all "," " " (JS.join_elem a)) args) in
  trace (snd (start w))
  = trace w ++
    [RequestSession true;
     Log Debug ("Stream command: " ++ videoProcessor (self w) ++ " " ++ shown)
         (Some (cameraName (self w)));
     Spawn (next_child w) (videoProcessor (self w)) args]
  /\ JS.contains "," shown = false
  /\ (Forall (fun a => JS.contains "," (JS.join_elem a) = false) args ->
      shown = JS.join " " (map JS.join_elem args)).
Proof.
  intros Hs Hg Hsrc args shown.
  destruct (requestSession (sessions w)) as [g c] eqn:Hr. simpl in Hg. subst g.
  assert (Hshown : JS.replace_all "," " " (JS.Array_toString args) = shown).
  { rewrite Array_toString_join, replace_join. unfold shown.
    now rewrite map_map. }
  split; [|split].
  - rewrite (start_granted_trace w c src Hs Hr Hsrc).
    fold args. now rewrite Hshown.
  - rewrite <- Hshown. now apply replace_all_gone.
  - intros Hclean. unfold shown. f_equal. apply map_ext_in.
    intros a Ha. apply replace_all_clean.
    rewrite Forall_forall in Hclean. now apply Hclean.
Qed.

Lemma start_logs_command_witness :
  trace (snd (start Scenario.fresh))
  = trace Scenario.fresh ++
    [RequestSession true;
     Log Debug
       "Stream command: ffmpeg -i rtsp://192.168.0.10/live -f mpegts -codec:v mpeg1video -s 1280x720 -b:v 300 -r 15 -bf 0 -preset ultrafast -threads 1 -loglevel error -q 1 -hide_banner -max_muxing_queue_size 1024 -"
       (Some "Front Door");
     Spawn 0 "ffmpeg"
       (spawnOptions (JS.split " " "-i rtsp://192.168.0.10/live")
          (flags (self Scenario.fresh)))].
Proof.
  exact (proj1 (start_logs_command Scenario.fresh "-i rtsp://192.168.0.10/live"
                  eq_refl eq_refl eq_refl)).
Defined.

(** X21. Each entry of the option set contributes its name, unless the name
    is the empty string, and then its value, unless the value is the empty
    string: a flag with an empty value is emitted bare, and a value that is
    a number, [null] or [undefined] is never dropped. The tokens of the
    source and the ten fixed arguments surround these as written. *)
Theorem spawnOptions_per_entry (tokens : list string) (o : JS.object) :
  spawnOptions tokens o
  = map JS.Str (filter (fun t => negb (t =? "")) tokens)
    ++ [JS.Str "-f"; JS.Str "mpegts"; JS.Str "-codec:v"; JS.Str "mpeg1video"]
    ++ flat_map (fun kv =>
                   (if fst kv =? "" then [] else [JS.Str (fst kv)])
                   ++ (if JS.strict_eq (snd kv) (JS.Str "") then []
                       else [snd kv]))
                (JS.entries o)
    ++ [JS.Str "-q"; JS.Str "1"; JS.Str "-hide_banner";
        JS.Str "-max_muxing_queue_size"; JS.Str "1024"; JS.Str "-"].
Proof.
  rewrite spawnOptions_eq. now rewrite filter_pairs.
Qed.

(** ** The diagnostic stream *)

Lemma strip_line_endings_filter (text : string) :
  strip_line_endings text
  = string_of_list_ascii
      (filter (fun c => negb (Ascii.eqb c CR || Ascii.eqb c LF))
              (list_ascii_of_string text)).
Proof.
  induction text as [|c rest IH]; [reflexivity|].
  cbn [strip_line_endings list_ascii_of_string filter].
  destruct (Ascii.eqb c CR) eqn:Ecr.
  - cbn [orb negb]. destruct rest as [|c' rest']; [exact IH|].
    destruct (Ascii.eqb c' LF) eqn:Elf; [|exact IH].
    rewrite <- IH. cbn [strip_line_endings].
    apply Ascii.eqb_eq in Elf. subst c'. reflexivity.
  - cbn [orb]. destruct (Ascii.eqb c LF); cbn [negb]; [exact IH|].
    cbn [string_of_list_ascii]. now rewrite IH.
Qed.

(** X22. A chunk of the child's diagnostic output is logged once, at error
    severity under the camera's name, as its text without any carriage
    return or line feed and with every other character kept in order;
    nothing of it goes to the socket. *)
Theorem stderr_is_logged_without_line_endings (s : StreamService)
    (data : string) :
  on_stderr s data
  = [RelayLog Error
       (string_of_list_ascii
          (filter (fun c => negb (Ascii.eqb c CR || Ascii.eqb c LF))
                  (list_ascii_of_string data)))
       (Some (cameraName s))].
Proof. unfold on_stderr. now rewrite strip_line_endings_filter. Qed.

Example stderr_sample :
  on_stderr (constructor "ffmpeg" Examples.quiet_camera) Samples.noisy
  = [RelayLog Error "frame=1frame=2done" (Some "Front Door")].
Proof. reflexivity. Qed.

(** ** Where every granted slot is *)

Section Accounting.

Context {Ctl : Type} `{SessionService Ctl}.

Lemma replay_start (c0 : Ctl) (w : world Ctl) :
  replay c0 (trace w) = Some (sessions w) ->
  replay c0 (trace (snd (start w))) = Some (sessions (snd (start w))).
Proof.
  intros Hrep.
  destruct (streamSession (self w)) as [p|] eqn:Hs;
    [now rewrite (start_running w p Hs)|].
  destruct (requestSession (sessions w)) as [g c] eqn:Hr.
  assert (Hreq : forall rest,
             replay c0 (trace w ++ RequestSession g :: rest) = replay c rest).
  { intros rest. rewrite replay_app, Hrep. cbn [replay]. rewrite Hr.
    cbn [fst snd]. now rewrite Bool.eqb_reflx. }
  destruct g.
  - destruct (source (streamOptions (self w))) as [src|l] eqn:Hsrc.
    + destruct (spawn_accepts (videoProcessor (self w))
                  (spawnOptions (JS.split " " src) (flags (self w))))
        eqn:Hacc.
      * rewrite (start_granted w c src Hs Hr Hsrc Hacc). cbn [snd trace sessions].
        now rewrite Hreq.
      * rewrite (start_rejected w c src Hs Hr Hsrc Hacc).
        cbn [snd trace sessions]. now rewrite Hreq.
    + rewrite (start_granted_array w c l Hs Hr Hsrc). cbn [snd trace sessions].
      now rewrite Hreq.
  - rewrite (start_denied w c Hs Hr). cbn [snd trace sessions].
    now rewrite Hreq.
Qed.

Lemma replay_step (c0 : Ctl) (w w' : world Ctl) e :
  replay c0 (trace w) = Some (sessions w) ->
  step w e = Some w' ->
  replay c0 (trace w') = Some (sessions w').
Proof.
  intros Hrep Hstep.
  destruct e as [db| | | |src|options|options|p code signal|];
    cbn [step] in Hstep.
  - now injection Hstep as <-.
  - injection Hstep as <-. now apply replay_start.
  - injection Hstep as <-.
    destruct (streamSession (self w)) as [p|] eqn:Hs.
    + rewrite (stop_running w p Hs). cbn [snd trace sessions].
      now rewrite replay_app, Hrep.
    + now rewrite (stop_idle w Hs).
  - injection Hstep as <-.
    destruct (streamSession (self w)) as [p|] eqn:Hs.
    + rewrite (restart_running w p Hs). cbn [snd trace sessions].
      now rewrite replay_app, Hrep.
    + rewrite (restart_idle w Hs). now apply replay_start.
  - rewrite setStreamSource_throws in Hstep. now injection Hstep as <-.
  - now injection Hstep as <-.
  - now injection Hstep as <-.
  - destruct (existsb (Nat.eqb p) (children w)); [|discriminate].
    injection Hstep as <-. rewrite on_exit_eq.
    cbn [snd trace sessions remove_child]. rewrite replay_app, Hrep.
    unfold exit_log. now destruct (JS.strict_eq code (JS.Num 1)).
  - destruct (timers w); [discriminate|]. injection Hstep as <-.
    now apply (replay_start c0 (drop_timer w)).
Qed.

Lemma replay_run (c0 : Ctl) (w w' : world Ctl) es :
  replay c0 (trace w) = Some (sessions w) ->
  run w es = Some w' ->
  replay c0 (trace w') = Some (sessions w').
Proof.
  revert w. induction es as [|e es IH]; simpl; intros w Hrep Hrun.
  - now injection Hrun as <-.
  - destruct (step w e) as [w1|] eqn:Hstep; [|discriminate].
    apply (IH w1); [|assumption]. now apply (replay_step c0 w w1 e).
Qed.

End Accounting.

(** X23. Along every run of a session from its construction, the
    controller is in the state that the recorded calls of [requestSession]
    and [closeSession], made in order, lead to, with the recorded answers.
    Every granted slot is released by an [exit], or held by the live child,
    or was granted to a [start] whose [spawn] raised; and [closeSession] is
    called once by every [exit] event, whatever the exit code, and by
    nothing else. *)
Theorem granted_slots_accounted_for {Ctl : Type} `{SessionService Ctl}
    (processor : string) (cam : camera) (c0 : Ctl)
    (es : list event) (w : world Ctl) (e : event) (w' : world Ctl) :
  run (init processor cam c0) es = Some w ->
  step w e = Some w' ->
  replay c0 (trace w') = Some (sessions w')
  /\ grants (trace w')
     = releases (trace w') + (if holds_process (self w') then 1 else 0)
       + rejected_spawns (trace w')
  /\ releases (trace w') = releases (trace w) + (if is_exit e then 1 else 0).
Proof.
  intros Hrun Hstep.
  pose proof (inv_run _ w es (inv_init processor cam c0) Hrun) as Hinv.
  destruct (inv_step w w' e Hinv Hstep) as ((_ & _ & Hacc) & Hrel & _).
  split; [|split; assumption].
  apply (replay_step c0 w w' e); [|exact Hstep].
  now apply (replay_run c0 (init processor cam c0) w es).
Qed.

Lemma granted_slots_accounted_for_witness :
  replay (SlotPool 1 0) (trace Scenario.failed) = Some (SlotPool 1 0)
  /\ grants (trace Scenario.failed)
     = releases (trace Scenario.failed) + 0
       + rejected_spawns (trace Scenario.failed)
  /\ releases (trace Scenario.failed) = releases (trace Scenario.running) + 1.
Proof.
  exact (granted_slots_accounted_for "ffmpeg" Examples.quiet_camera
           (SlotPool 1 0) [CallStart] Scenario.running
           (Exit 0 (JS.Num 1) JS.Null) Scenario.failed eq_refl eq_refl).
Defined.

Example spawn_rejects_nul :
  spawn_accepts "ffmpeg" [JS.Str "-i"; JS.Str (String NUL "x")] = false
  /\ spawn_accepts "" [JS.Str "-i"] = false
  /\ spawn_accepts "ffmpeg" [JS.Str "-bf"; JS.Num 0; JS.Undefined] = true.
Proof. repeat split. Qed.
